(** * SourceLineResolverBase: the module registry of the symbolizer

    A shallow embedding of [src/processor/source_line_resolver_base.cc]
    and the properties of its load / unload / lookup operations.

    - A [std::string] is a [string]; it may hold nul bytes anywhere.
    - [std::map<string, Module*, CompareString>] is the sequence of its
      entries in iteration order; [find], [insert] and [erase] are those
      of the standard container, driven by the comparator of the source.
    - The buffers obtained from [operator new] live in a heap indexed by
      address, so that a buffer has an identity apart from its content.
    - The virtual hooks have empty bodies in this class.  Every call of a
      hook, of the C file API and of the module's ingest routine is
      appended to a trace, which is what the statements about "the hook
      fires once" are read from.
    - A pointer argument is an [option]; dereferencing [None] has no
      defined behaviour and is the [Undefined] outcome. *)

From Stdlib Require Import ZArith Ascii String.
From stdpp Require Import base option list sorting gmap strings.

(** ** C strings and the key comparator *)

Definition byte_val (c : ascii) : Z := Z.of_N (N_of_ascii c).

(** [s.c_str()]: the characters of [s] followed by a terminating nul. *)
Definition c_str (s : string) : list ascii := list_ascii_of_string s ++ [zero].

(** [strcmp] of the C library on two character arrays: the bytes are
    compared as unsigned values up to the first difference or the first
    nul.  Nothing beyond a terminator is ever read; the end of the list
    reads as a nul. *)
Fixpoint strcmp (p q : list ascii) : Z :=
  match p, q with
  | [], [] => 0
  | [], b :: _ => 0 - byte_val b
  | a :: _, [] => byte_val a - 0
  | a :: p', b :: q' =>
      if Ascii.eqb a b
      then (if Ascii.eqb a zero then 0 else strcmp p' q')
      else byte_val a - byte_val b
  end%Z.

(** [SourceLineResolverBase::CompareString::operator()]. *)
Definition CompareString (s1 s2 : string) : bool :=
  (strcmp (c_str s1) (c_str s2) <? 0)%Z.

(** Two keys that the comparator does not order are the same key for
    the map. *)
Definition key_equiv (s1 s2 : string) : bool :=
  negb (CompareString s1 s2) && negb (CompareString s2 s1).

(** ** The ordered map *)

(** The entries of a [std::map<string, V, CompareString>], in iteration
    order. *)
Abbreviation StdMap V := (list (string * V)) (only parsing).

(** An iterator is a position together with the entry it designates;
    [end()] is [None]. *)
Abbreviation iterator V := (option (nat * (string * V))) (only parsing).

Section OrderedMap.
Context {V : Type}.

(** Class invariant of the container: keys strictly increasing. *)
Definition map_ok (m : StdMap V) : Prop :=
  StronglySorted (λ e1 e2, CompareString e1.1 e2.1 = true) m.

(** Position of the first entry whose key is not less than [k]. *)
Fixpoint lower_bound (k : string) (m : StdMap V) : nat :=
  match m with
  | [] => 0
  | e :: m' => if CompareString e.1 k then S (lower_bound k m') else 0
  end.

(** [m.find(k)]: the lower bound, unless [k] is less than its key. *)
Definition map_find (k : string) (m : StdMap V) : iterator V :=
  let j := lower_bound k m in
  match m !! j with
  | Some e => if CompareString k e.1 then None else Some (j, e)
  | None => None
  end.

(** [m.insert(make_pair(k, v))]: nothing is inserted when an equivalent
    key is present. *)
Definition map_insert (kv : string * V) (m : StdMap V) : StdMap V :=
  let j := lower_bound kv.1 m in
  match m !! j with
  | Some e =>
      if CompareString kv.1 e.1 then take j m ++ kv :: drop j m else m
  | None => take j m ++ kv :: drop j m
  end.

(** [m.erase(iter)] for an iterator at position [j]. *)
Definition map_erase (j : nat) (m : StdMap V) : StdMap V := delete j m.

(** [*iter] for [iter = m.find(k)], when that is not [end()]. *)
Definition map_lookup (k : string) (m : StdMap V) : option (string * V) :=
  snd <$> map_find k m.

End OrderedMap.

(** ** The types of the surrounding processor *)

(** What the resolver uses of [CodeModule], [StackFrame] and the two
    frame-info results; their declarations are in other headers. *)
Class FrameTypes := {
  CodeModule : Type;
  code_file : CodeModule → string;
  StackFrame : Type;
  frame_module : StackFrame → option CodeModule;
  WindowsFrameInfo : Type;
  CFIFrameInfo : Type;
}.

(** The address of a block of [operator new]. *)
Abbreviation ptr := nat (only parsing).

(** The abstract class [SourceLineResolverBase::Module] with the factory
    that builds it.  [LoadMapFromMemory] receives the [char*]: the
    address of the buffer and the character array that is there.  It
    answers whether it accepted it, and gives the module and the array
    as it leaves them.  Nothing keeps a module from recording the
    address. *)
Class ModuleFactory `{FrameTypes} := {
  Module : Type;
  CreateModule : string → Module;
  LoadMapFromMemory :
    Module → ptr → list ascii → bool * Module * list ascii;
  LookupAddress : Module → StackFrame → StackFrame;
  Module_FindWindowsFrameInfo : Module → StackFrame →
                                option WindowsFrameInfo;
  Module_FindCFIFrameInfo : Module → StackFrame → option CFIFrameInfo;
}.

(** The module table of the resolver. *)
Abbreviation ModuleMap := (StdMap Module) (only parsing).

(** What [stat] and [fopen]/[fread] answer for a path: the size that
    [stat] reports ([None] when it returns -1) and the bytes that the
    opened stream delivers before end of file or a read error ([None]
    when [fopen] fails).  The two need not agree. *)
Record FileSystem := {
  fs_stat : string → option nat;
  fs_fopen : string → option (list ascii);
}.

(** ** State, trace and outcomes *)

(** The value of an [int] that receives a [size_t]. *)
Definition int_of_size_t (n : nat) : Z :=
  ((Z.of_nat n + 2 ^ 31) `mod` 2 ^ 32 - 2 ^ 31)%Z.

(** Content of a block that has not been written yet.  Each block below
    is written in full before it is handed on. *)
Definition indeterminate : ascii := "?"%char.

(** A call either returns or, having dereferenced a null pointer, has no
    defined behaviour. *)
Inductive Outcome (A : Type) :=
| Returns (a : A)
| Undefined.
Arguments Returns {A} a.
Arguments Undefined {A}.

Section Resolver.
Context `{MF : ModuleFactory}.

(** The calls that leave the class: the C file API, the hooks, and the
    ingest routine of a module with the character array it is given. *)
Inductive Event :=
| call_stat (map_file : string)
| call_fopen (map_file : string)
| call_fread (symbol_data : ptr) (count : nat)
| call_fclose
| call_StoreDataBeforeLoad (module : option CodeModule) (symbol_data : ptr)
| call_DeleteDataAfterLoad (symbol_data : ptr)
| call_DeleteDataUnload (module : option CodeModule)
| call_ClearLocalMemory
| call_LoadMapFromMemory (name : string) (memory_buffer : ptr)
    (contents : list ascii).

(** The resolver with what surrounds it: its module table [modules_],
    the live symbol buffers (the blocks that the load paths get from
    [operator new]; the modules are in the table, not here), and the
    calls made so far, oldest first. *)
Record State := {
  modules_ : ModuleMap;
  heap : gmap ptr (list ascii);
  trace : list Event;
}.

(** Code that runs on the resolver: a result and the state it leaves. *)
Definition M (A : Type) : Type := State → A * State.

#[export] Instance M_ret : MRet M := λ A a st, (a, st).
#[export] Instance M_bind : MBind M :=
  λ A B k c st, let (a, st') := c st in k a st'.

Definition log (e : Event) : M unit :=
  λ st, (tt, {| modules_ := modules_ st; heap := heap st;
                trace := trace st ++ [e] |}).

Definition get_modules : M ModuleMap := λ st, (modules_ st, st).

Definition set_modules (m : ModuleMap) : M unit :=
  λ st, (tt, {| modules_ := m; heap := heap st; trace := trace st |}).

Definition get_heap : M (gmap ptr (list ascii)) := λ st, (heap st, st).

Definition set_heap (h : gmap ptr (list ascii)) : M unit :=
  λ st, (tt, {| modules_ := modules_ st; heap := h; trace := trace st |}).

(** *** Memory and the C file API *)

(** [operator new(n)] when it provides the block: [n] bytes at an
    address that is not in use.  The functions of this section are the
    code in the runs where it does; the runs where it throws or gives a
    null pointer, with the [== NULL] tests of the source, are those of
    [operator_new_alloc] and the [_alloc] functions further down. *)
Definition operator_new (n : nat) : M ptr :=
  h ← get_heap;
  let p := fresh (dom h) in
  set_heap (<[p := replicate n indeterminate]> h);;
  mret p.

Definition operator_delete (p : ptr) : M unit :=
  h ← get_heap; set_heap (delete p h).

Definition write_block (p : ptr) (f : list ascii → list ascii) : M unit :=
  h ← get_heap; set_heap (alter f p h).

(** The character array at [p]. *)
Definition read_block (p : ptr) : M (list ascii) :=
  h ← get_heap; mret (default [] (h !! p)).

(** [memcpy(dst, src, n)]. *)
Definition memcpy (dst : ptr) (src : list ascii) (n : nat) : M unit :=
  write_block dst (λ b, take n src ++ drop n b).

(** [p[i] = c]. *)
Definition store_char (p : ptr) (i : nat) (c : ascii) : M unit :=
  write_block p (λ b, <[i := c]> b).

(** [fread(p, 1, count, f)] on a stream that still delivers [f]: the
    number of bytes stored. *)
Definition fread (p : ptr) (count : nat) (f : list ascii) : M nat :=
  log (call_fread p count);;
  let data := take count f in
  write_block p (λ b, data ++ drop (length data) b);;
  mret (length data).

(** *** The hooks of the class *)

Definition StoreDataBeforeLoad (module : option CodeModule)
    (symbol_data : ptr) : M unit :=
  log (call_StoreDataBeforeLoad module symbol_data).

Definition DeleteDataAfterLoad (symbol_data : ptr) : M unit :=
  log (call_DeleteDataAfterLoad symbol_data).

Definition DeleteDataUnload (module : option CodeModule) : M unit :=
  log (call_DeleteDataUnload module).

Definition ClearLocalMemory : M unit := log call_ClearLocalMemory.

(** *** Construction *)

Definition SourceLineResolverBase_new (h : gmap ptr (list ascii)) : State :=
  {| modules_ := []; heap := h; trace := [] |}.

(** *** Reading a symbol file *)

(** [symbol_data] is the [char**] of the source: [None] is a null
    pointer.  The result is [Some p] when the function returns true
    having stored [p] in [*symbol_data], and [None] when it returns
    false. *)
Definition ReadSymbolFile (fs : FileSystem) (symbol_data : option unit)
    (map_file : string) : M (option ptr) :=
  match symbol_data with
  | None => mret None
  | Some _ =>
      log (call_stat map_file);;
      match fs_stat fs map_file with
      | None => mret None
      | Some file_size =>
          p ← operator_new (file_size + 1);
          log (call_fopen map_file);;
          match fs_fopen fs map_file with
          | None => operator_delete p;; mret None
          | Some f =>
              n ← fread p file_size f;
              let items_read := int_of_size_t n in
              if negb (items_read =? Z.of_nat file_size)%Z
              then operator_delete p;; log call_fclose;; mret None
              else store_char p file_size zero;; log call_fclose;;
                   mret (Some p)
          end
      end
  end.

(** *** Loading *)

Definition LoadModuleUsingMemoryBuffer (module : option CodeModule)
    (memory_buffer : ptr) : M bool :=
  match module with
  | None => DeleteDataAfterLoad memory_buffer;; mret false
  | Some cm =>
      modules ← get_modules;
      match map_find (code_file cm) modules with
      | Some _ => DeleteDataAfterLoad memory_buffer;; mret false
      | None =>
          let basic_module := CreateModule (code_file cm) in
          contents ← read_block memory_buffer;
          log (call_LoadMapFromMemory (code_file cm) memory_buffer contents);;
          let '(ok, basic_module, contents') :=
            LoadMapFromMemory basic_module memory_buffer contents in
          write_block memory_buffer (λ _, contents');;
          if negb ok
          then DeleteDataAfterLoad memory_buffer;; mret false
          else
            set_modules (map_insert (code_file cm, basic_module) modules);;
            DeleteDataAfterLoad memory_buffer;;
            mret true
      end
  end.

Definition LoadModule (fs : FileSystem) (module : option CodeModule)
    (map_file : string) : M bool :=
  match module with
  | None => mret false
  | Some cm =>
      modules ← get_modules;
      match map_find (code_file cm) modules with
      | Some _ => mret false
      | None =>
          r ← ReadSymbolFile fs (Some tt) map_file;
          match r with
          | None => mret false
          | Some memory_buffer =>
              StoreDataBeforeLoad module memory_buffer;;
              LoadModuleUsingMemoryBuffer module memory_buffer
          end
      end
  end.

Definition LoadModuleUsingMapBuffer (module : option CodeModule)
    (map_buffer : string) : M bool :=
  memory_buffer ← operator_new (String.length map_buffer + 1);
  memcpy memory_buffer (c_str map_buffer) (String.length map_buffer);;
  store_char memory_buffer (String.length map_buffer) zero;;
  StoreDataBeforeLoad module memory_buffer;;
  LoadModuleUsingMemoryBuffer module memory_buffer.

(** *** Unloading and queries *)

Definition UnloadModule (code_module : option CodeModule) : M unit :=
  match code_module with
  | None => mret tt
  | Some cm =>
      modules ← get_modules;
      match map_find (code_file cm) modules with
      | Some (iter, _) => set_modules (map_erase iter modules)
      | None => mret tt
      end;;
      DeleteDataUnload code_module
  end.

Definition HasModule (module : option CodeModule) (st : State) : bool :=
  match module with
  | None => false
  | Some cm => bool_decide (is_Some (map_find (code_file cm) (modules_ st)))
  end.

(** The frame operations take a [StackFrame*] and read [frame->module]
    at once.  [FillSourceLineInfo] gives the frame as the call leaves
    it. *)
Definition FillSourceLineInfo (frame : option StackFrame) (st : State)
    : Outcome StackFrame :=
  match frame with
  | None => Undefined
  | Some f =>
      match frame_module f with
      | Some cm =>
          match map_find (code_file cm) (modules_ st) with
          | Some (_, (_, md)) => Returns (LookupAddress md f)
          | None => Returns f
          end
      | None => Returns f
      end
  end.

Definition FindWindowsFrameInfo (frame : option StackFrame) (st : State)
    : Outcome (option WindowsFrameInfo) :=
  match frame with
  | None => Undefined
  | Some f =>
      match frame_module f with
      | Some cm =>
          match map_find (code_file cm) (modules_ st) with
          | Some (_, (_, md)) => Returns (Module_FindWindowsFrameInfo md f)
          | None => Returns None
          end
      | None => Returns None
      end
  end.

Definition FindCFIFrameInfo (frame : option StackFrame) (st : State)
    : Outcome (option CFIFrameInfo) :=
  match frame with
  | None => Undefined
  | Some f =>
      match frame_module f with
      | Some cm =>
          match map_find (code_file cm) (modules_ st) with
          | Some (_, (_, md)) => Returns (Module_FindCFIFrameInfo md f)
          | None => Returns None
          end
      | None => Returns None
      end
  end.

End Resolver.

Arguments ReadSymbolFile : simpl never.
Arguments LoadModuleUsingMemoryBuffer : simpl never.
Arguments LoadModule : simpl never.
Arguments LoadModuleUsingMapBuffer : simpl never.
Arguments UnloadModule : simpl never.
Arguments HasModule : simpl never.

(** ** Calls as data *)

Section Calls.
Context `{MF : ModuleFactory}.

(** The two public ways of loading a module. *)
Inductive LoadCall :=
| FromFile (fs : FileSystem) (module : option CodeModule) (map_file : string)
| FromBuffer (module : option CodeModule) (map_buffer : string).

Definition load_module_of (c : LoadCall) : option CodeModule :=
  match c with
  | FromFile _ module _ => module
  | FromBuffer module _ => module
  end.

Definition load_call (c : LoadCall) : M bool :=
  match c with
  | FromFile fs module map_file => LoadModule fs module map_file
  | FromBuffer module map_buffer => LoadModuleUsingMapBuffer module map_buffer
  end.

(** The answer of the ingest routine of a fresh module for [cm] on the
    array [contents] at the address [p]. *)
Definition accepts (cm : CodeModule) (p : ptr) (contents : list ascii)
    : bool :=
  (LoadMapFromMemory (CreateModule (code_file cm)) p contents).1.1.

(** A load that brings valid symbol data and meets no other failure:
    the module is not null and the ingest routine accepts the bytes, in
    the block at [p] where the load puts them; for a file, moreover,
    [stat] and [fopen] succeed, the stream delivers all the bytes that
    [stat] announced, and their number fits the [int] that receives the
    count of [fread]. *)
Definition load_has_valid_data (p : ptr) (c : LoadCall) : Prop :=
  match c with
  | FromBuffer (Some cm) map_buffer =>
      accepts cm p (list_ascii_of_string map_buffer ++ [zero]) = true
  | FromFile fs (Some cm) map_file =>
      ∃ file_size f,
        fs_stat fs map_file = Some file_size ∧
        fs_fopen fs map_file = Some f ∧
        file_size ≤ length f ∧
        (Z.of_nat file_size < 2 ^ 31)%Z ∧
        accepts cm p (take file_size f ++ [zero]) = true
  | _ => False
  end.

(** A sequence of loads, one after the other, with their results. *)
Fixpoint load_calls (cs : list LoadCall) : M (list bool) :=
  match cs with
  | [] => mret []
  | c :: cs' => b ← load_call c; bs ← load_calls cs'; mret (b :: bs)
  end.

(** The seven public operations with their arguments. *)
Inductive Op :=
| Op_LoadModule (fs : FileSystem) (module : option CodeModule)
    (map_file : string)
| Op_LoadModuleUsingMapBuffer (module : option CodeModule)
    (map_buffer : string)
| Op_UnloadModule (code_module : option CodeModule)
| Op_HasModule (module : option CodeModule)
| Op_FillSourceLineInfo (frame : option StackFrame)
| Op_FindWindowsFrameInfo (frame : option StackFrame)
| Op_FindCFIFrameInfo (frame : option StackFrame).

Inductive Result :=
| ret_void
| ret_bool (b : bool)
| ret_frame (f : StackFrame)
| ret_windows (r : option WindowsFrameInfo)
| ret_cfi (r : option CFIFrameInfo).

Definition outcome_map {A B} (f : A → B) (o : Outcome A) : Outcome B :=
  match o with
  | Returns a => Returns (f a)
  | Undefined => Undefined
  end.

Definition run (op : Op) (st : State) : Outcome (Result * State) :=
  match op with
  | Op_LoadModule fs module map_file =>
      let (b, st') := LoadModule fs module map_file st in
      Returns (ret_bool b, st')
  | Op_LoadModuleUsingMapBuffer module map_buffer =>
      let (b, st') := LoadModuleUsingMapBuffer module map_buffer st in
      Returns (ret_bool b, st')
  | Op_UnloadModule code_module =>
      let (_, st') := UnloadModule code_module st in
      Returns (ret_void, st')
  | Op_HasModule module => Returns (ret_bool (HasModule module st), st)
  | Op_FillSourceLineInfo frame =>
      outcome_map (λ f, (ret_frame f, st)) (FillSourceLineInfo frame st)
  | Op_FindWindowsFrameInfo frame =>
      outcome_map (λ r, (ret_windows r, st)) (FindWindowsFrameInfo frame st)
  | Op_FindCFIFrameInfo frame =>
      outcome_map (λ r, (ret_cfi r, st)) (FindCFIFrameInfo frame st)
  end.

(** A sequence of operations; it stops at the first one that has no
    defined behaviour. *)
Fixpoint run_all (ops : list Op) (st : State)
    : Outcome (list Result * State) :=
  match ops with
  | [] => Returns ([], st)
  | op :: ops' =>
      match run op st with
      | Returns (r, st') =>
          match run_all ops' st' with
          | Returns (rs, st'') => Returns (r :: rs, st'')
          | Undefined => Undefined
          end
      | Undefined => Undefined
      end
  end.

(** [op] is a load of a module whose code file is [K]. *)
Definition op_loads (K : string) (op : Op) : bool :=
  match op with
  | Op_LoadModule _ (Some cm) _
  | Op_LoadModuleUsingMapBuffer (Some cm) _ => String.eqb (code_file cm) K
  | _ => false
  end.

(** [op] unloads a module whose code file the map takes for [K]. *)
Definition op_unloads (K : string) (op : Op) : bool :=
  match op with
  | Op_UnloadModule (Some cm) => key_equiv (code_file cm) K
  | _ => false
  end.

(** The result has the form that the signature of [op] announces. *)
Definition result_of_kind (op : Op) (r : Result) : Prop :=
  match op, r with
  | Op_LoadModule _ _ _, ret_bool _
  | Op_LoadModuleUsingMapBuffer _ _, ret_bool _
  | Op_HasModule _, ret_bool _
  | Op_UnloadModule _, ret_void
  | Op_FillSourceLineInfo _, ret_frame _
  | Op_FindWindowsFrameInfo _, ret_windows _
  | Op_FindCFIFrameInfo _, ret_cfi _ => True
  | _, _ => False
  end.

(** The frame pointer of an operation that takes one. *)
Definition frame_of (op : Op) : option (option StackFrame) :=
  match op with
  | Op_FillSourceLineInfo frame
  | Op_FindWindowsFrameInfo frame
  | Op_FindCFIFrameInfo frame => Some frame
  | _ => None
  end.

(** *** Reading the trace *)

Definition is_hook_call (e : Event) : bool :=
  match e with
  | call_StoreDataBeforeLoad _ _
  | call_DeleteDataAfterLoad _
  | call_DeleteDataUnload _
  | call_ClearLocalMemory => true
  | _ => false
  end.

(** The hook calls of a trace, in order. *)
Definition hook_calls (t : list Event) : list Event :=
  List.filter is_hook_call t.

(** The character arrays given to [Module::LoadMapFromMemory]. *)
Fixpoint ingest_buffers (t : list Event) : list (list ascii) :=
  match t with
  | [] => []
  | call_LoadMapFromMemory _ _ contents :: t' => contents :: ingest_buffers t'
  | _ :: t' => ingest_buffers t'
  end.

(** What a call added to the trace. *)
Definition new_calls (st st' : State) : list Event :=
  drop (length (trace st)) (trace st').

End Calls.

Arguments new_calls : simpl never.

(** ** Notions for the properties of the whole class *)

(** What a C function reads of a character array: the bytes before the
    first nul. *)
Fixpoint c_prefix (p : list ascii) : list ascii :=
  match p with
  | [] => []
  | a :: p' => if Ascii.eqb a zero then [] else a :: c_prefix p'
  end.

(** A string without a nul byte. *)
Definition nul_free (s : string) : Prop :=
  Forall (λ a, a ≠ zero) (list_ascii_of_string s).

(** The bytes of [map_file] when [stat] and [fopen] succeed, the stream
    delivers as many bytes as [stat] announced, and that number fits an
    [int]. *)
Definition whole_file (fs : FileSystem) (map_file : string)
    : option (list ascii) :=
  match fs_stat fs map_file, fs_fopen fs map_file with
  | Some file_size, Some f =>
      if (file_size <=? length f) && (Z.of_nat file_size <? 2 ^ 31)%Z
      then Some (take file_size f)
      else None
  | _, _ => None
  end.

Section Notions.
Context `{MF : ModuleFactory}.

Definition is_fclose (e : Event) : bool :=
  match e with
  | call_fclose => true
  | _ => false
  end.

Definition is_file_call (e : Event) : bool :=
  match e with
  | call_stat _ | call_fopen _ | call_fread _ _ | call_fclose => true
  | _ => false
  end.

(** The character array that a load hands to the ingest routine, when it
    gets that far: the bytes of the buffer, or of the whole file,
    followed by a nul. *)
Definition load_contents (c : LoadCall) : option (list ascii) :=
  match c with
  | FromFile fs _ map_file => (λ data, data ++ [zero]) <$> whole_file fs map_file
  | FromBuffer _ map_buffer => Some (list_ascii_of_string map_buffer ++ [zero])
  end.

(** The module that the ingest routine leaves for [cm] on [contents] at
    the address [p]. *)
Definition parsed (cm : CodeModule) (p : ptr) (contents : list ascii)
    : Module :=
  (LoadMapFromMemory (CreateModule (code_file cm)) p contents).1.2.

(** An ingest routine that makes no use of the address of the buffer. *)
Definition address_blind : Prop :=
  ∀ (md : Module) (p q : ptr) (contents : list ascii),
    LoadMapFromMemory md p contents = LoadMapFromMemory md q contents.

(** The states that a new resolver reaches by its public operations. *)
Definition reachable (st : State) : Prop :=
  ∃ h ops results,
    run_all ops (SourceLineResolverBase_new h) = Returns (results, st).

End Notions.

(** ** When [operator new] does not provide the buffer *)

(** What [operator new(n)] does with a request for [n] bytes: it
    provides a block; or it throws [std::bad_alloc], as the allocation
    function of the language does when it finds no memory; or it gives a
    null pointer, the case that the tests at lines 105 and 174 look
    for.  These are the two allocations that the file asks for itself;
    those made inside the table, the module factory and the logger are
    taken to succeed. *)
Inductive Allocation :=
| Provides
| Throws
| Gives_null.

(** How a call ends: it returns; an exception leaves it; or it has read
    through a null pointer. *)
Inductive Completion (A : Type) :=
| Completes (a : A)
| Bad_alloc
| Null_read.
Arguments Completes {A} a.
Arguments Bad_alloc {A}.
Arguments Null_read {A}.

Section Exhaustion.
Context `{MF : ModuleFactory}.

(** Code that may be left by an exception. *)
Definition MX (A : Type) : Type := State → Completion (A * State).

#[export] Instance MX_ret : MRet MX := λ A a st, Completes (a, st).
#[export] Instance MX_bind : MBind MX :=
  λ A B k c st,
    match c st with
    | Completes (a, st') => k a st'
    | Bad_alloc => Bad_alloc
    | Null_read => Null_read
    end.

(** Code that no exception leaves. *)
Definition lift {A} (c : M A) : MX A := λ st, Completes (c st).

Definition of_outcome {A} (o : Outcome A) : Completion A :=
  match o with
  | Returns a => Completes a
  | Undefined => Null_read
  end.

(** [operator new(n)] under [alloc]; [None] is the null pointer. *)
Definition operator_new_alloc (alloc : nat → Allocation) (n : nat)
    : MX (option ptr) :=
  match alloc n with
  | Provides => p ← lift (operator_new n); mret (Some p)
  | Throws => λ _, Bad_alloc
  | Gives_null => mret None
  end.

Definition ReadSymbolFile_alloc (alloc : nat → Allocation)
    (fs : FileSystem) (symbol_data : option unit) (map_file : string)
    : MX (option ptr) :=
  match symbol_data with
  | None => mret None
  | Some _ =>
      lift (log (call_stat map_file));;
      match fs_stat fs map_file with
      | None => mret None
      | Some file_size =>
          block ← operator_new_alloc alloc (file_size + 1);
          match block with
          | None => mret None
          | Some p =>
              lift (
                log (call_fopen map_file);;
                match fs_fopen fs map_file with
                | None => operator_delete p;; mret None
                | Some f =>
                    n ← fread p file_size f;
                    let items_read := int_of_size_t n in
                    if negb (items_read =? Z.of_nat file_size)%Z
                    then operator_delete p;; log call_fclose;; mret None
                    else store_char p file_size zero;; log call_fclose;;
                         mret (Some p)
                end)
          end
      end
  end.

Definition LoadModule_alloc (alloc : nat → Allocation) (fs : FileSystem)
    (module : option CodeModule) (map_file : string) : MX bool :=
  match module with
  | None => mret false
  | Some cm =>
      modules ← lift get_modules;
      match map_find (code_file cm) modules with
      | Some _ => mret false
      | None =>
          r ← ReadSymbolFile_alloc alloc fs (Some tt) map_file;
          match r with
          | None => mret false
          | Some memory_buffer =>
              lift (
                StoreDataBeforeLoad module memory_buffer;;
                LoadModuleUsingMemoryBuffer module memory_buffer)
          end
      end
  end.

Definition LoadModuleUsingMapBuffer_alloc (alloc : nat → Allocation)
    (module : option CodeModule) (map_buffer : string) : MX bool :=
  block ← operator_new_alloc alloc (String.length map_buffer + 1);
  match block with
  | None => mret false
  | Some memory_buffer =>
      lift (
        memcpy memory_buffer (c_str map_buffer) (String.length map_buffer);;
        store_char memory_buffer (String.length map_buffer) zero;;
        StoreDataBeforeLoad module memory_buffer;;
        LoadModuleUsingMemoryBuffer module memory_buffer)
  end.

Definition load_call_alloc (alloc : nat → Allocation) (c : LoadCall)
    : MX bool :=
  match c with
  | FromFile fs module map_file => LoadModule_alloc alloc fs module map_file
  | FromBuffer module map_buffer =>
      LoadModuleUsingMapBuffer_alloc alloc module map_buffer
  end.

(** The seven operations under [alloc]; only the two loads ask
    [operator new] for a buffer. *)
Definition run_alloc (alloc : nat → Allocation) (op : Op) (st : State)
    : Completion (Result * State) :=
  match op with
  | Op_LoadModule fs module map_file =>
      match LoadModule_alloc alloc fs module map_file st with
      | Completes (b, st') => Completes (ret_bool b, st')
      | Bad_alloc => Bad_alloc
      | Null_read => Null_read
      end
  | Op_LoadModuleUsingMapBuffer module map_buffer =>
      match LoadModuleUsingMapBuffer_alloc alloc module map_buffer st with
      | Completes (b, st') => Completes (ret_bool b, st')
      | Bad_alloc => Bad_alloc
      | Null_read => Null_read
      end
  | _ => of_outcome (run op st)
  end.

(** The size that a load asks [operator new] for, when it gets as far
    as asking: a buffer copy always does; a file load does once the
    module is not null, its key is absent and [stat] has succeeded. *)
Definition load_request (c : LoadCall) (st : State) : option nat :=
  match c with
  | FromBuffer _ map_buffer => Some (String.length map_buffer + 1)
  | FromFile fs (Some cm) map_file =>
      if HasModule (Some cm) st then None
      else (λ file_size, file_size + 1) <$> fs_stat fs map_file
  | FromFile _ None _ => None
  end.

(** [alloc] provides what is asked for, if anything is. *)
Definition provided (alloc : nat → Allocation) (request : option nat)
    : bool :=
  match request with
  | Some n => match alloc n with Provides => true | _ => false end
  | None => true
  end.

(** [operator new] does not throw for the buffer that [op] may ask
    for. *)
Definition does_not_throw (alloc : nat → Allocation) (op : Op) : Prop :=
  match op with
  | Op_LoadModule fs _ map_file =>
      ∀ file_size, fs_stat fs map_file = Some file_size →
                   alloc (file_size + 1) ≠ Throws
  | Op_LoadModuleUsingMapBuffer _ map_buffer =>
      alloc (String.length map_buffer + 1) ≠ Throws
  | _ => True
  end.

End Exhaustion.

Arguments ReadSymbolFile_alloc : simpl never.
Arguments LoadModule_alloc : simpl never.
Arguments LoadModuleUsingMapBuffer_alloc : simpl never.

(** ** A small backend to evaluate the model on *)

Module Sample.

Record Frame := {
  module : option string;
  instruction : Z;
  function_name : string;
  source_line : Z;
}.

#[export] Instance types : FrameTypes := {|
  CodeModule := string;
  code_file := λ s, s;
  StackFrame := Frame;
  frame_module := module;
  WindowsFrameInfo := Z;
  CFIFrameInfo := Z;
|}.

(** A module keeps the text it was given; it accepts a text that starts
    with the letter M. *)
#[export] Instance factory : ModuleFactory := {|
  Module := list ascii;
  CreateModule := λ _, [];
  LoadMapFromMemory := λ _ _ buffer,
    match buffer with
    | c :: _ => (Ascii.eqb c "M", buffer, buffer)
    | [] => (false, buffer, buffer)
    end;
  LookupAddress := λ md f,
    {| module := module f; instruction := instruction f;
       function_name := "main"; source_line := Z.of_nat (length md) |};
  Module_FindWindowsFrameInfo := λ md f, Some (instruction f);
  Module_FindCFIFrameInfo := λ md f, Some (Z.of_nat (length md));
|}.

Definition start : State := SourceLineResolverBase_new ∅.

(** One file of six bytes, the third of them a nul; [stat] reports
    six. *)
Definition disk : FileSystem := {|
  fs_stat := λ path, if String.eqb path "app.sym" then Some 6 else None;
  fs_fopen := λ path,
    if String.eqb path "app.sym"
    then Some (list_ascii_of_string ("MO" +:+ String zero "ULE"))
    else None;
|}.

(** The same file when the stream ends after four bytes. *)
Definition short_disk : FileSystem := {|
  fs_stat := λ path, if String.eqb path "app.sym" then Some 6 else None;
  fs_fopen := λ path,
    if String.eqb path "app.sym"
    then Some (list_ascii_of_string "MODU")
    else None;
|}.

Definition frame0 : Frame :=
  {| module := Some "app.exe"; instruction := 4096;
     function_name := ""; source_line := 0 |}.

(** The resolver after [app.exe] has been loaded from a buffer. *)
Definition loaded : State :=
  (LoadModuleUsingMapBuffer (Some "app.exe") "MODULE" start).2.

Definition first_load : LoadCall := FromBuffer (Some "app.exe") "MODULE".

Definition load_from_disk : LoadCall :=
  FromFile disk (Some "app.exe") "app.sym".

(** A frame that names no module. *)
Definition orphan : Frame :=
  {| module := None; instruction := 8192;
     function_name := ""; source_line := 0 |}.

Definition fill_orphan : Op := Op_FillSourceLineInfo (Some orphan).

(** Two names of one key: they part after an embedded nul. *)
Definition name_one : string := "app" +:+ String zero "one".
Definition name_two : string := "app" +:+ String zero "two".

Definition load_one : LoadCall := FromBuffer (Some name_one) "MODULE".

Definition load_two : LoadCall := FromFile disk (Some name_two) "app.sym".

(** Later calls on [loaded]: loads of [app.exe] mixed with the load and
    the unload of another module and a query. *)
Definition later_calls : list Op :=
  [Op_LoadModule disk (Some "app.exe") "app.sym";
   Op_LoadModuleUsingMapBuffer (Some "lib.so") "MORE";
   Op_LoadModuleUsingMapBuffer (Some "app.exe") "not a symbol file";
   Op_HasModule (Some "app.exe");
   Op_UnloadModule (Some "lib.so");
   Op_LoadModuleUsingMapBuffer (Some "app.exe") "MODULE 2"].

(** A second module, and the resolver when both are loaded. *)
Definition load_lib : LoadCall := FromBuffer (Some "lib.so") "MORE".

Definition with_lib : State := (load_call load_lib start).2.

Definition busy_calls : list Op :=
  [Op_LoadModuleUsingMapBuffer (Some "app.exe") "MODULE";
   Op_LoadModuleUsingMapBuffer (Some "lib.so") "MORE"].

Definition busy : State := (load_call load_lib loaded).2.

(** A file for which [stat] reports 2^31 bytes. *)
Definition two_gib : nat := Z.to_nat (2 ^ 31).

(** Its stream delivers every one of them. *)
Definition huge_disk : FileSystem := {|
  fs_stat := λ _, Some two_gib;
  fs_fopen := λ _, Some (replicate two_gib "M"%char);
|}.

(** An [operator new] that provides every block, and one that throws
    for every request. *)
Definition plenty : nat → Allocation := λ _, Provides.

Definition exhausted : nat → Allocation := λ _, Throws.

Definition load_app_op : Op :=
  Op_LoadModuleUsingMapBuffer (Some "app.exe") "MODULE".


End Sample.

(** ** A backend whose modules keep the address of their buffer *)

Module Keeper.

(** A module is the address it was given by [LoadMapFromMemory], as for
    a module that points into the symbol data instead of copying it. *)
Definition factory : ModuleFactory (H := Sample.types) := {|
  Module := option nat;
  CreateModule := λ _, None;
  LoadMapFromMemory := λ _ p buffer, (true, Some p, buffer);
  LookupAddress := λ _ f, f;
  Module_FindWindowsFrameInfo := λ _ _, None;
  Module_FindCFIFrameInfo := λ _ _, None;
|}.

Definition start : State (MF := factory) := SourceLineResolverBase_new ∅.

(** The same, empty, table when one block is already in use. *)
Definition elsewhere : State (MF := factory) :=
  SourceLineResolverBase_new {[ 0 := [] ]}.

Definition load_app (st : State (MF := factory)) : bool * State :=
  @LoadModuleUsingMapBuffer Sample.types factory (Some "app.exe") "MODULE"
    st.

(** The hook calls of [load_app] on a buffer at [p]. *)
Definition hooks_on (p : nat) : list (Event (H := Sample.types)) :=
  [@call_StoreDataBeforeLoad Sample.types (Some "app.exe") p;
   call_DeleteDataAfterLoad p].

End Keeper.

(** ** The comparator is a strict weak order *)

Lemma byte_val_inj a b : byte_val a = byte_val b → a = b.
Proof.
  unfold byte_val. intros E. apply N2Z.inj in E.
  rewrite <- (ascii_N_embedding a), <- (ascii_N_embedding b).
  by rewrite E.
Qed.

Lemma byte_val_nonneg a : (0 ≤ byte_val a)%Z.
Proof. unfold byte_val. lia. Qed.

Lemma byte_val_zero : byte_val zero = 0%Z.
Proof. reflexivity. Qed.

(** Case analysis on the character tests of [strcmp], turning the
    inequalities of characters into inequalities of their values. *)
Ltac strcmp_cases :=
  simpl;
  repeat match goal with
    | |- context [Ascii.eqb ?x ?y] =>
        destruct (Ascii.eqb_spec x y); subst
    end;
  repeat match goal with
    | Hne : ?x ≠ ?y |- _ =>
        assert (byte_val x ≠ byte_val y)
          by (intros ?; apply Hne; by apply byte_val_inj);
        clear Hne
    end;
  rewrite ?byte_val_zero in *.

Lemma strcmp_lt_le_trans p : ∀ q r,
  (strcmp p q < 0 → strcmp q r ≤ 0 → strcmp p r < 0)%Z.
Proof.
  induction p as [|a p IH]; intros [|b q] [|c r]; strcmp_cases;
    try pose proof (byte_val_nonneg a); try pose proof (byte_val_nonneg b);
    try pose proof (byte_val_nonneg c); intros; try lia; eauto.
Qed.

Lemma strcmp_le_lt_trans p : ∀ q r,
  (strcmp p q ≤ 0 → strcmp q r < 0 → strcmp p r < 0)%Z.
Proof.
  induction p as [|a p IH]; intros [|b q] [|c r]; strcmp_cases;
    try pose proof (byte_val_nonneg a); try pose proof (byte_val_nonneg b);
    try pose proof (byte_val_nonneg c); intros; try lia; eauto.
Qed.

Lemma strcmp_antisym p : ∀ q, strcmp q p = (- strcmp p q)%Z.
Proof.
  induction p as [|a p IH]; intros [|b q]; strcmp_cases;
    try lia; try congruence; eauto.
Qed.

Lemma strcmp_refl p : strcmp p p = 0%Z.
Proof. pose proof (strcmp_antisym p p). lia. Qed.

(** Nothing after the first nul is compared. *)
Lemma strcmp_nul_cut p x y : strcmp (p ++ zero :: x) (p ++ zero :: y) = 0%Z.
Proof.
  induction p as [|a p IH]; simpl.
  - reflexivity.
  - rewrite Ascii.eqb_refl. by destruct (Ascii.eqb a zero).
Qed.

Lemma c_str_append p s :
  c_str (p +:+ s) = list_ascii_of_string p ++ c_str s.
Proof.
  unfold c_str. induction p as [|a p IH]; simpl; [done|].
  by rewrite IH.
Qed.

Lemma CompareString_spec s1 s2 :
  CompareString s1 s2 = true ↔ (strcmp (c_str s1) (c_str s2) < 0)%Z.
Proof. unfold CompareString. apply Z.ltb_lt. Qed.

Lemma CompareString_false s1 s2 :
  CompareString s1 s2 = false ↔ (strcmp (c_str s2) (c_str s1) ≤ 0)%Z.
Proof.
  unfold CompareString. rewrite Z.ltb_ge, (strcmp_antisym (c_str s1)). lia.
Qed.

Lemma CompareString_irrefl s : CompareString s s = false.
Proof. apply CompareString_false. by rewrite strcmp_refl. Qed.

Lemma CompareString_trans a b c :
  CompareString a b = true → CompareString b c = true →
  CompareString a c = true.
Proof.
  rewrite !CompareString_spec. intros Hab Hbc.
  apply (strcmp_lt_le_trans _ (c_str b)); lia.
Qed.

Lemma CompareString_asym a b :
  CompareString a b = true → CompareString b a = false.
Proof. rewrite CompareString_spec, CompareString_false. lia. Qed.

(** A key below [a] is below everything that is not below [a]. *)
Lemma CompareString_lt_le a b c :
  CompareString a b = true → CompareString c b = false →
  CompareString a c = true.
Proof.
  rewrite !CompareString_spec, CompareString_false.
  apply strcmp_lt_le_trans.
Qed.

Lemma CompareString_le_lt a b c :
  CompareString b a = false → CompareString b c = true →
  CompareString a c = true.
Proof.
  rewrite !CompareString_spec, CompareString_false.
  apply strcmp_le_lt_trans.
Qed.

Lemma key_equiv_spec a b :
  key_equiv a b = true ↔
  CompareString a b = false ∧ CompareString b a = false.
Proof.
  unfold key_equiv. rewrite andb_true_iff, !negb_true_iff. tauto.
Qed.

Lemma key_equiv_refl a : key_equiv a a = true.
Proof. apply key_equiv_spec. by rewrite CompareString_irrefl. Qed.

(** Equivalent keys compare alike with every third key. *)
Lemma key_equiv_CompareString_l a b c :
  key_equiv a b = true → CompareString a c = CompareString b c.
Proof.
  rewrite key_equiv_spec. intros [Hab Hba].
  destruct (CompareString a c) eqn:Ha, (CompareString b c) eqn:Hb; try done.
  - by rewrite (CompareString_le_lt b a c) in Hb.
  - by rewrite (CompareString_le_lt a b c) in Ha.
Qed.

Lemma key_equiv_CompareString_r a b c :
  key_equiv a b = true → CompareString c a = CompareString c b.
Proof.
  rewrite key_equiv_spec. intros [Hab Hba].
  destruct (CompareString c a) eqn:Ha, (CompareString c b) eqn:Hb; try done.
  - by rewrite (CompareString_lt_le c a b) in Hb.
  - by rewrite (CompareString_lt_le c b a) in Ha.
Qed.

(** Two strings that agree up to and including a nul are one key. *)
Lemma key_equiv_nul_cut p x y :
  key_equiv (p +:+ String zero x) (p +:+ String zero y) = true.
Proof.
  apply key_equiv_spec. rewrite !CompareString_false, !c_str_append.
  unfold c_str; simpl. by rewrite !strcmp_nul_cut.
Qed.

(** ** The ordered map: find, insert and erase *)

Section OrderedMapFacts.
Context {V : Type}.
Implicit Types (m : list (string * V)) (e : string * V) (k : string) (v : V).

Lemma map_find_nil k : map_find k ([] : StdMap V) = None.
Proof. reflexivity. Qed.

Lemma map_find_cons k e m :
  map_find k (e :: m) =
    if CompareString e.1 k then prod_map S id <$> map_find k m
    else if CompareString k e.1 then None else Some (0, e).
Proof.
  unfold map_find; simpl lower_bound. destruct (CompareString e.1 k).
  - change ((e :: m) !! S (lower_bound k m)) with (m !! lower_bound k m).
    destruct (m !! lower_bound k m) as [e'|]; [|done].
    by destruct (CompareString k e'.1).
  - done.
Qed.

Lemma map_insert_nil kv : map_insert kv ([] : StdMap V) = [kv].
Proof. reflexivity. Qed.

Lemma map_insert_cons (kv : string * V) e m :
  map_insert kv (e :: m) =
    if CompareString e.1 kv.1 then e :: map_insert kv m
    else if CompareString kv.1 e.1 then kv :: e :: m else e :: m.
Proof.
  unfold map_insert; simpl lower_bound. destruct (CompareString e.1 kv.1).
  - change ((e :: m) !! S (lower_bound kv.1 m))
      with (m !! lower_bound kv.1 m).
    destruct (m !! lower_bound kv.1 m) as [e'|]; [|done].
    by destruct (CompareString kv.1 e'.1).
  - change ((e :: m) !! 0) with (Some e); simpl.
    by destruct (CompareString kv.1 e.1).
Qed.

(** What [find] returns is an entry of the map with an equivalent key. *)
Lemma map_find_Some k m j e :
  map_find k m = Some (j, e) → m !! j = Some e ∧ key_equiv k e.1 = true.
Proof.
  revert j. induction m as [|e0 m IH]; intros j; [done|].
  rewrite map_find_cons.
  destruct (CompareString e0.1 k) eqn:H1.
  - destruct (map_find k m) as [[j' e']|]; simpl; [|done].
    intros [= <- <-]. by apply IH.
  - destruct (CompareString k e0.1) eqn:H2; [done|].
    intros [= <- <-]. split; [done|]. by apply key_equiv_spec.
Qed.

(** [find] does not tell equivalent keys apart. *)
Lemma map_find_equiv k k' m :
  key_equiv k k' = true → map_find k m = map_find k' m.
Proof.
  intros E. induction m as [|e m IH]; [done|].
  rewrite !map_find_cons, IH.
  by rewrite (key_equiv_CompareString_r _ _ e.1 E),
    (key_equiv_CompareString_l _ _ e.1 E).
Qed.

(** Inserting under a key that is present changes nothing. *)
Lemma map_insert_present k v m :
  is_Some (map_find k m) → map_insert (k, v) m = m.
Proof.
  induction m as [|e m IH]; [by intros [? ?]|].
  rewrite map_find_cons, map_insert_cons; simpl.
  destruct (CompareString e.1 k).
  - rewrite fmap_is_Some. intros Hs. by rewrite IH.
  - destruct (CompareString k e.1); [by intros [? ?]|done].
Qed.

(** After inserting under an absent key, [find] gives the new entry. *)
Lemma map_find_insert k v m :
  map_find k m = None →
  map_find k (map_insert (k, v) m) = Some (lower_bound k m, (k, v)).
Proof.
  induction m as [|e m IH].
  - intros _. rewrite map_insert_nil, map_find_cons; simpl.
    by rewrite CompareString_irrefl.
  - rewrite map_find_cons, map_insert_cons; simpl.
    destruct (CompareString e.1 k) eqn:H1.
    + intros Hn%fmap_None.
      by rewrite map_find_cons, H1, IH.
    + destruct (CompareString k e.1) eqn:H2; [|done]. intros _.
      by rewrite map_find_cons; simpl; rewrite CompareString_irrefl.
Qed.

Lemma map_ok_nil : map_ok ([] : StdMap V).
Proof. constructor. Qed.

Lemma map_ok_insert kv m : map_ok m → map_ok (map_insert kv m).
Proof.
  unfold map_ok. induction m as [|e m IH]; intros Hs.
  - rewrite map_insert_nil. by repeat constructor.
  - apply StronglySorted_inv in Hs as [Hs Hall].
    rewrite map_insert_cons.
    destruct (CompareString e.1 kv.1) eqn:H1.
    + constructor; [by apply IH|].
      assert (Hin : ∀ x, x ∈ map_insert kv m → x = kv ∨ x ∈ m).
      { clear. induction m as [|e m IH]; intros x.
        - rewrite map_insert_nil. intros ->%list_elem_of_singleton. by left.
        - rewrite map_insert_cons.
          destruct (CompareString e.1 kv.1);
            [|destruct (CompareString kv.1 e.1)];
            rewrite !elem_of_cons; intros Hx; try tauto;
            destruct Hx as [Hx|Hx]; try tauto; apply IH in Hx; tauto. }
      apply Forall_forall. intros x [->| Hx]%Hin; [done|].
      by eapply Forall_forall in Hall.
    + destruct (CompareString kv.1 e.1) eqn:H2.
      * constructor; [by constructor|].
        constructor; [done|].
        eapply Forall_impl; [exact Hall|]. simpl. intros x Hx.
        by eapply CompareString_trans.
      * by constructor.
Qed.

Lemma map_ok_erase j m : map_ok m → map_ok (map_erase j m).
Proof.
  unfold map_ok, map_erase. revert j.
  induction m as [|e m IH]; intros [|j] Hs; simpl; try done.
  - by apply StronglySorted_inv in Hs as [Hs _].
  - apply StronglySorted_inv in Hs as [Hs Hall].
    constructor; [by apply IH|]. by apply Forall_delete.
Qed.

(** In a well-formed map the erased key is gone. *)
Lemma map_find_erase k m j e :
  map_ok m → map_find k m = Some (j, e) →
  map_find k (map_erase j m) = None.
Proof.
  unfold map_ok, map_erase. revert j.
  induction m as [|e0 m IH]; intros j Hs; [done|].
  apply StronglySorted_inv in Hs as [Hs Hall].
  rewrite map_find_cons.
  destruct (CompareString e0.1 k) eqn:H1.
  - destruct (map_find k m) as [[j' e']|] eqn:Hf; simpl; [|done].
    intros [= <- <-]. simpl. rewrite map_find_cons, H1.
    apply fmap_None. by apply IH.
  - destruct (CompareString k e0.1) eqn:H2; [done|].
    intros [= <- <-]. simpl.
    destruct m as [|e1 m]; [done|].
    apply Forall_cons in Hall as [H01 _].
    rewrite map_find_cons.
    assert (CompareString k e1.1 = true) as Hk
      by by eapply CompareString_le_lt.
    by rewrite Hk, (CompareString_asym _ _ Hk).
Qed.

Lemma map_lookup_cons k e m :
  map_lookup k (e :: m) =
    if CompareString e.1 k then map_lookup k m
    else if CompareString k e.1 then None else Some e.
Proof.
  unfold map_lookup. rewrite map_find_cons.
  destruct (CompareString e.1 k).
  - by destruct (map_find k m) as [[j x]|].
  - by destruct (CompareString k e.1).
Qed.

Lemma map_lookup_is_Some k m :
  is_Some (map_lookup k m) ↔ is_Some (map_find k m).
Proof. unfold map_lookup. apply fmap_is_Some. Qed.

Lemma map_lookup_None k m : map_lookup k m = None ↔ map_find k m = None.
Proof. unfold map_lookup. apply fmap_None. Qed.

(** A key that is found is not below the first key. *)
Lemma map_lookup_Some_head k e0 m e :
  map_lookup k (e0 :: m) = Some e → CompareString k e0.1 = false.
Proof.
  rewrite map_lookup_cons.
  destruct (CompareString e0.1 k) eqn:H1.
  - intros _. by apply CompareString_asym.
  - by destruct (CompareString k e0.1).
Qed.

(** Inserting under an absent key leaves the entry of a present key. *)
Lemma map_lookup_insert_other k k' v m e :
  map_lookup k' m = None → map_lookup k m = Some e →
  map_lookup k (map_insert (k', v) m) = Some e.
Proof.
  induction m as [|e0 m IH]; [done|].
  intros Hk' Hk. pose proof (map_lookup_Some_head _ _ _ _ Hk) as Hhead.
  revert Hk' Hk. rewrite map_insert_cons, !map_lookup_cons; simpl.
  destruct (CompareString e0.1 k') eqn:H1.
  - rewrite map_lookup_cons.
    destruct (CompareString e0.1 k); [by apply IH|done].
  - destruct (CompareString k' e0.1) eqn:H2; [|done]. intros _ Hk.
    rewrite !map_lookup_cons; simpl.
    by rewrite (CompareString_lt_le k' e0.1 k).
Qed.

(** In a well-formed map, erasing the entry of one key leaves the
    entries of the keys that are not equivalent to it. *)
Lemma map_lookup_erase_other k k' m j e' :
  map_ok m → map_find k' m = Some (j, e') → key_equiv k' k = false →
  map_lookup k (map_erase j m) = map_lookup k m.
Proof.
  unfold map_ok, map_erase. intros Hs Hf Hne. revert j Hs Hf.
  induction m as [|e0 m IH]; intros j Hs; [done|].
  apply StronglySorted_inv in Hs as [Hs Hall].
  rewrite map_find_cons.
  destruct (CompareString e0.1 k') eqn:H1.
  - destruct (map_find k' m) as [[j' e'']|] eqn:Hf; simpl; [|done].
    intros [= <- <-]. simpl. rewrite !map_lookup_cons.
    destruct (CompareString e0.1 k); [|done]. by apply (IH j').
  - destruct (CompareString k' e0.1) eqn:H2; [done|].
    intros [= <- <-]. simpl. rewrite map_lookup_cons.
    destruct (CompareString e0.1 k) eqn:H3; [done|].
    destruct (CompareString k e0.1) eqn:H4.
    + destruct m as [|e1 m]; [done|].
      apply Forall_cons in Hall as [H01 _].
      rewrite map_lookup_cons.
      assert (CompareString k e1.1 = true) as Hk
        by by eapply CompareString_trans.
      by rewrite Hk, (CompareString_asym _ _ Hk).
    + exfalso.
      assert (key_equiv k' e0.1 = true) as E by by apply key_equiv_spec.
      assert (key_equiv k' k = true); [|congruence].
      apply key_equiv_spec.
      by rewrite (key_equiv_CompareString_l _ _ k E),
        (key_equiv_CompareString_r _ _ k E).
Qed.

End OrderedMapFacts.

(** ** What the operations compute *)

Ltac unfold_M :=
  unfold StoreDataBeforeLoad, DeleteDataAfterLoad, DeleteDataUnload,
    ClearLocalMemory, fread, memcpy, store_char, write_block, read_block,
    operator_new, operator_delete, log, get_modules, set_modules, get_heap,
    set_heap, mbind, M_bind, mret, M_ret; simpl.

Section ResolverFacts.
Context `{MF : ModuleFactory}.
Implicit Types (st : State) (cm : CodeModule) (module : option CodeModule).

Lemma int_of_size_t_small (n : nat) :
  (Z.of_nat n < 2 ^ 31)%Z → int_of_size_t n = Z.of_nat n.
Proof.
  intros Hn. unfold int_of_size_t.
  rewrite Z.mod_small by lia. lia.
Qed.

(** The [int] that receives the count of [fread] equals the size only
    when the count does. *)
Lemma int_of_size_t_eq (n size : nat) :
  n ≤ size → int_of_size_t n = Z.of_nat size → n = size.
Proof.
  intros Hle. unfold int_of_size_t. intros E.
  assert (Z.of_nat size < 2 ^ 31)%Z as Hs.
  { pose proof (Z.mod_pos_bound (Z.of_nat n + 2 ^ 31) (2 ^ 32)). lia. }
  rewrite Z.mod_small in E by lia. lia.
Qed.

Lemma fresh_block_free (h : gmap nat (list ascii)) : h !! fresh (dom h) = None.
Proof. apply not_elem_of_dom, is_fresh. Qed.

(** A block of [length s + 1] bytes after the copy of [s] and the store
    of the terminator. *)
Lemma copied_block (bytes : list ascii) (src_end : list ascii) :
  <[length bytes := zero]>
    (take (length bytes) (bytes ++ src_end) ++
     drop (length bytes) (replicate (length bytes + 1) indeterminate))
  = bytes ++ [zero].
Proof.
  rewrite take_app_length, drop_replicate.
  replace (length bytes + 1 - length bytes) with 1 by lia. simpl.
  by rewrite insert_app_r_alt, Nat.sub_diag by lia.
Qed.

Lemma length_list_ascii_of_string (s : string) :
  length (list_ascii_of_string s) = String.length s.
Proof. induction s; simpl; congruence. Qed.

Lemma LoadModuleUsingMemoryBuffer_null p st :
  LoadModuleUsingMemoryBuffer None p st =
    (false, {| modules_ := modules_ st; heap := heap st;
               trace := trace st ++ [call_DeleteDataAfterLoad p] |}).
Proof. reflexivity. Qed.

Lemma LoadModuleUsingMemoryBuffer_present cm p st :
  is_Some (map_find (code_file cm) (modules_ st)) →
  LoadModuleUsingMemoryBuffer (Some cm) p st =
    (false, {| modules_ := modules_ st; heap := heap st;
               trace := trace st ++ [call_DeleteDataAfterLoad p] |}).
Proof.
  intros [it Hit]. unfold LoadModuleUsingMemoryBuffer. unfold_M.
  by rewrite Hit.
Qed.

Lemma LoadModuleUsingMemoryBuffer_absent cm p st contents :
  map_find (code_file cm) (modules_ st) = None →
  heap st !! p = Some contents →
  LoadModuleUsingMemoryBuffer (Some cm) p st =
    let r := LoadMapFromMemory (CreateModule (code_file cm)) p contents in
    (r.1.1,
     {| modules_ :=
          if r.1.1 then map_insert (code_file cm, r.1.2) (modules_ st)
          else modules_ st;
        heap := <[p := r.2]> (heap st);
        trace := trace st ++
          [call_LoadMapFromMemory (code_file cm) p contents;
           call_DeleteDataAfterLoad p] |}).
Proof.
  intros Hf Hp. unfold LoadModuleUsingMemoryBuffer. unfold_M.
  rewrite Hf, Hp; simpl.
  destruct (LoadMapFromMemory _ _ _) as [[ok md] contents']; simpl.
  assert (alter (λ _, contents') p (heap st) = <[p := contents']> (heap st))
    as ->.
  { apply map_eq. intros q. destruct (decide (p = q)) as [<-|Hne].
    - by rewrite lookup_alter_eq, lookup_insert_eq, Hp.
    - by rewrite lookup_alter_ne, lookup_insert_ne. }
  destruct ok; simpl; by rewrite <- ?app_assoc.
Qed.

(** The buffer entry point up to the call of the common path: a fresh
    block holds the bytes and a nul, and the first hook has been
    called. *)
Lemma LoadModuleUsingMapBuffer_unfold module map_buffer st :
  LoadModuleUsingMapBuffer module map_buffer st =
    let p := fresh (dom (heap st)) in
    LoadModuleUsingMemoryBuffer module p
      {| modules_ := modules_ st;
         heap := <[p := list_ascii_of_string map_buffer ++ [zero]]> (heap st);
         trace := trace st ++ [call_StoreDataBeforeLoad module p] |}.
Proof.
  unfold LoadModuleUsingMapBuffer. unfold_M.
  rewrite !alter_insert_eq. unfold c_str.
  rewrite <- (length_list_ascii_of_string map_buffer).
  by rewrite copied_block.
Qed.

(** [ReadSymbolFile] with a non-null out-pointer, case by case. *)
Lemma ReadSymbolFile_spec fs map_file st :
  ReadSymbolFile fs (Some tt) map_file st =
    let p := fresh (dom (heap st)) in
    match fs_stat fs map_file with
    | None =>
        (None, {| modules_ := modules_ st; heap := heap st;
                  trace := trace st ++ [call_stat map_file] |})
    | Some file_size =>
        match fs_fopen fs map_file with
        | None =>
            (None, {| modules_ := modules_ st; heap := heap st;
                      trace := trace st ++
                        [call_stat map_file; call_fopen map_file] |})
        | Some f =>
            let data := take file_size f in
            if (int_of_size_t (length data) =? Z.of_nat file_size)%Z
            then
              (Some p,
               {| modules_ := modules_ st;
                  heap := <[p := data ++ [zero]]> (heap st);
                  trace := trace st ++
                    [call_stat map_file; call_fopen map_file;
                     call_fread p file_size; call_fclose] |})
            else
              (None,
               {| modules_ := modules_ st; heap := heap st;
                  trace := trace st ++
                    [call_stat map_file; call_fopen map_file;
                     call_fread p file_size; call_fclose] |})
        end
    end.
Proof.
  unfold ReadSymbolFile. unfold_M.
  destruct (fs_stat fs map_file) as [file_size|]; simpl; [|done].
  destruct (fs_fopen fs map_file) as [f|]; simpl.
  - rewrite !alter_insert_eq.
    destruct (int_of_size_t (length (take file_size f)) =? Z.of_nat file_size)%Z
      eqn:E; simpl.
    + apply Z.eqb_eq, int_of_size_t_eq in E; [|rewrite length_take; lia].
      rewrite alter_insert_eq, <- !app_assoc; simpl.
      do 3 f_equal. rewrite drop_replicate, E at 1.
      replace (file_size + 1 - file_size) with 1 by lia. simpl.
      rewrite <- E at 1. by rewrite insert_app_r_alt, Nat.sub_diag by lia.
    + rewrite delete_insert_eq, delete_id by apply fresh_block_free.
      by rewrite <- !app_assoc.
  - rewrite delete_insert_eq, delete_id by apply fresh_block_free.
    by rewrite <- !app_assoc.
Qed.

Lemma LoadModule_null fs map_file st :
  LoadModule fs None map_file st = (false, st).
Proof. reflexivity. Qed.

Lemma LoadModule_present fs cm map_file st :
  is_Some (map_find (code_file cm) (modules_ st)) →
  LoadModule fs (Some cm) map_file st = (false, st).
Proof.
  intros [it Hit]. unfold LoadModule. unfold_M. by rewrite Hit.
Qed.

Lemma LoadModule_absent fs cm map_file st :
  map_find (code_file cm) (modules_ st) = None →
  LoadModule fs (Some cm) map_file st =
    let r := ReadSymbolFile fs (Some tt) map_file st in
    match r.1 with
    | None => (false, r.2)
    | Some memory_buffer =>
        LoadModuleUsingMemoryBuffer (Some cm) memory_buffer
          {| modules_ := modules_ r.2; heap := heap r.2;
             trace := trace r.2 ++
               [call_StoreDataBeforeLoad (Some cm) memory_buffer] |}
    end.
Proof.
  intros Hf.
  unfold LoadModule, get_modules, StoreDataBeforeLoad, log, mbind, M_bind,
    mret, M_ret.
  rewrite Hf.
  by destruct (ReadSymbolFile fs (Some tt) map_file st) as [[p|] st1].
Qed.

(** The table after the common load path: one entry more under an
    absent key when it returns true, and the same table otherwise. *)
Lemma LoadModuleUsingMemoryBuffer_modules module p st :
  let res := LoadModuleUsingMemoryBuffer module p st in
  if res.1
  then ∃ cm md, module = Some cm ∧
         map_find (code_file cm) (modules_ st) = None ∧
         modules_ res.2 = map_insert (code_file cm, md) (modules_ st)
  else modules_ res.2 = modules_ st.
Proof.
  destruct module as [cm|]; [|done].
  unfold LoadModuleUsingMemoryBuffer. unfold_M.
  destruct (map_find (code_file cm) (modules_ st)) eqn:Hf; [done|].
  destruct (LoadMapFromMemory _ _ _) as [[ok md] contents']; simpl.
  destruct ok; simpl; eauto.
Qed.

Lemma ReadSymbolFile_modules fs map_file st :
  modules_ (ReadSymbolFile fs (Some tt) map_file st).2 = modules_ st.
Proof.
  rewrite ReadSymbolFile_spec; simpl.
  destruct (fs_stat fs map_file); [|done].
  destruct (fs_fopen fs map_file); [|done].
  by destruct (_ =? _)%Z.
Qed.

Lemma LoadModule_modules fs module map_file st :
  let res := LoadModule fs module map_file st in
  if res.1
  then ∃ cm md, module = Some cm ∧
         map_find (code_file cm) (modules_ st) = None ∧
         modules_ res.2 = map_insert (code_file cm, md) (modules_ st)
  else modules_ res.2 = modules_ st.
Proof.
  destruct module as [cm|]; [|done].
  destruct (map_find (code_file cm) (modules_ st)) eqn:Hf.
  - by rewrite LoadModule_present.
  - rewrite LoadModule_absent by done. simpl.
    pose proof (ReadSymbolFile_modules fs map_file st) as Hm.
    destruct (ReadSymbolFile fs (Some tt) map_file st) as [[p|] st1];
      simpl in *; [|done].
    match goal with
    | |- context [LoadModuleUsingMemoryBuffer ?a ?b ?c] =>
        pose proof (LoadModuleUsingMemoryBuffer_modules a b c) as Hl;
        simpl in Hl;
        destruct (LoadModuleUsingMemoryBuffer a b c) as [[] st2]; simpl in *
    end.
    + destruct Hl as (cm' & md & [= <-] & _ & ->). rewrite Hm. eauto.
    + congruence.
Qed.

Lemma LoadModuleUsingMapBuffer_modules module map_buffer st :
  let res := LoadModuleUsingMapBuffer module map_buffer st in
  if res.1
  then ∃ cm md, module = Some cm ∧
         map_find (code_file cm) (modules_ st) = None ∧
         modules_ res.2 = map_insert (code_file cm, md) (modules_ st)
  else modules_ res.2 = modules_ st.
Proof.
  rewrite LoadModuleUsingMapBuffer_unfold. simpl.
  match goal with
  | |- context [LoadModuleUsingMemoryBuffer ?a ?b ?c] =>
      apply (LoadModuleUsingMemoryBuffer_modules a b c)
  end.
Qed.

Lemma load_call_modules (c : LoadCall) st :
  let res := load_call c st in
  if res.1
  then ∃ cm md, load_module_of c = Some cm ∧
         map_find (code_file cm) (modules_ st) = None ∧
         modules_ res.2 = map_insert (code_file cm, md) (modules_ st)
  else modules_ res.2 = modules_ st.
Proof.
  destruct c; simpl.
  - apply LoadModule_modules.
  - apply LoadModuleUsingMapBuffer_modules.
Qed.

(** A load that returns true leaves its key in the table. *)
Lemma load_call_true_present (c : LoadCall) cm st :
  load_module_of c = Some cm → (load_call c st).1 = true →
  is_Some (map_find (code_file cm) (modules_ (load_call c st).2)).
Proof.
  intros Hc Ht. pose proof (load_call_modules c st) as Hm. simpl in Hm.
  rewrite Ht in Hm. destruct Hm as (cm' & md & Hc' & Hf & ->).
  assert (cm' = cm) as -> by congruence.
  rewrite map_find_insert by done. eauto.
Qed.

(** A load under a key that is present returns false and leaves the
    table as it is. *)
Lemma load_call_present (c : LoadCall) cm st :
  load_module_of c = Some cm →
  is_Some (map_find (code_file cm) (modules_ st)) →
  (load_call c st).1 = false ∧ modules_ (load_call c st).2 = modules_ st.
Proof.
  intros Hc Hp. pose proof (load_call_modules c st) as Hm. simpl in Hm.
  destruct (load_call c st).1.
  - destruct Hm as (cm' & md & Hc' & Hf & _).
    assert (cm' = cm) as -> by congruence.
    rewrite Hf in Hp. by destruct Hp.
  - done.
Qed.

Lemma load_call_map_ok (c : LoadCall) st :
  map_ok (modules_ st) → map_ok (modules_ (load_call c st).2).
Proof.
  intros Hok. pose proof (load_call_modules c st) as Hm. simpl in Hm.
  destruct (load_call c st).1.
  - destruct Hm as (cm & md & _ & _ & ->). by apply map_ok_insert.
  - by rewrite Hm.
Qed.

Lemma UnloadModule_spec cm st :
  UnloadModule (Some cm) st =
    (tt, {| modules_ :=
              match map_find (code_file cm) (modules_ st) with
              | Some (iter, _) => map_erase iter (modules_ st)
              | None => modules_ st
              end;
            heap := heap st;
            trace := trace st ++ [call_DeleteDataUnload (Some cm)] |}).
Proof.
  unfold UnloadModule. unfold_M.
  by destruct (map_find (code_file cm) (modules_ st)) as [[iter e]|].
Qed.

Lemma UnloadModule_map_ok code_module st :
  map_ok (modules_ st) → map_ok (modules_ (UnloadModule code_module st).2).
Proof.
  intros Hok. destruct code_module as [cm|]; [|done].
  rewrite UnloadModule_spec; simpl.
  destruct (map_find (code_file cm) (modules_ st)) as [[iter e]|]; [|done].
  by apply map_ok_erase.
Qed.

Lemma new_calls_app st st' t :
  trace st' = trace st ++ t → new_calls st st' = t.
Proof. unfold new_calls. intros ->. by rewrite drop_app_length. Qed.

Lemma HasModule_true cm st :
  HasModule (Some cm) st = true ↔
  is_Some (map_find (code_file cm) (modules_ st)).
Proof. unfold HasModule. apply bool_decide_eq_true. Qed.

Lemma HasModule_false cm st :
  HasModule (Some cm) st = false ↔
  map_find (code_file cm) (modules_ st) = None.
Proof.
  unfold HasModule. rewrite bool_decide_eq_false.
  by rewrite eq_None_not_Some.
Qed.

(** The buffer entry point, case by case. *)
Lemma LoadModuleUsingMapBuffer_spec module map_buffer st :
  LoadModuleUsingMapBuffer module map_buffer st =
    let p := fresh (dom (heap st)) in
    let contents := list_ascii_of_string map_buffer ++ [zero] in
    match module with
    | Some cm =>
        if HasModule (Some cm) st
        then
          (false,
           {| modules_ := modules_ st; heap := <[p := contents]> (heap st);
              trace := trace st ++
                [call_StoreDataBeforeLoad module p;
                 call_DeleteDataAfterLoad p] |})
        else
          let r :=
            LoadMapFromMemory (CreateModule (code_file cm)) p contents in
          (r.1.1,
           {| modules_ :=
                if r.1.1 then map_insert (code_file cm, r.1.2) (modules_ st)
                else modules_ st;
              heap := <[p := r.2]> (heap st);
              trace := trace st ++
                [call_StoreDataBeforeLoad module p;
                 call_LoadMapFromMemory (code_file cm) p contents;
                 call_DeleteDataAfterLoad p] |})
    | None =>
        (false,
         {| modules_ := modules_ st; heap := <[p := contents]> (heap st);
            trace := trace st ++
              [call_StoreDataBeforeLoad module p;
               call_DeleteDataAfterLoad p] |})
    end.
Proof.
  rewrite LoadModuleUsingMapBuffer_unfold; simpl.
  destruct module as [cm|].
  - destruct (HasModule (Some cm) st) eqn:Hh.
    + apply HasModule_true in Hh.
      rewrite LoadModuleUsingMemoryBuffer_present by done; simpl.
      by rewrite <- app_assoc.
    + apply HasModule_false in Hh.
      erewrite LoadModuleUsingMemoryBuffer_absent;
        [|done|by apply lookup_insert_eq]; simpl.
      by rewrite insert_insert_eq, <- app_assoc.
  - rewrite LoadModuleUsingMemoryBuffer_null; simpl.
    by rewrite <- app_assoc.
Qed.

(** The file entry point, case by case. *)
Lemma LoadModule_spec fs module map_file st :
  LoadModule fs module map_file st =
    let p := fresh (dom (heap st)) in
    match module with
    | Some cm =>
        if HasModule (Some cm) st then (false, st)
        else
          match fs_stat fs map_file with
          | None =>
              (false, {| modules_ := modules_ st; heap := heap st;
                         trace := trace st ++ [call_stat map_file] |})
          | Some file_size =>
              match fs_fopen fs map_file with
              | None =>
                  (false,
                   {| modules_ := modules_ st; heap := heap st;
                      trace := trace st ++
                        [call_stat map_file; call_fopen map_file] |})
              | Some f =>
                  let data := take file_size f in
                  if (int_of_size_t (length data) =? Z.of_nat file_size)%Z
                  then
                    let r :=
                      LoadMapFromMemory (CreateModule (code_file cm)) p
                        (data ++ [zero]) in
                    (r.1.1,
                     {| modules_ :=
                          if r.1.1
                          then map_insert (code_file cm, r.1.2) (modules_ st)
                          else modules_ st;
                        heap := <[p := r.2]> (heap st);
                        trace := trace st ++
                          [call_stat map_file; call_fopen map_file;
                           call_fread p file_size; call_fclose;
                           call_StoreDataBeforeLoad (Some cm) p;
                           call_LoadMapFromMemory (code_file cm) p
                             (data ++ [zero]);
                           call_DeleteDataAfterLoad p] |})
                  else
                    (false,
                     {| modules_ := modules_ st; heap := heap st;
                        trace := trace st ++
                          [call_stat map_file; call_fopen map_file;
                           call_fread p file_size; call_fclose] |})
              end
          end
    | None => (false, st)
    end.
Proof.
  destruct module as [cm|]; [|done]. simpl.
  destruct (HasModule (Some cm) st) eqn:Hh.
  { apply HasModule_true in Hh. by apply LoadModule_present. }
  apply HasModule_false in Hh.
  rewrite LoadModule_absent, ReadSymbolFile_spec by done; simpl.
  destruct (fs_stat fs map_file) as [file_size|]; [|done].
  destruct (fs_fopen fs map_file) as [f|]; [|done].
  destruct (_ =? _)%Z; [|done]. simpl.
  erewrite LoadModuleUsingMemoryBuffer_absent;
    [|done|by apply lookup_insert_eq]; simpl.
  by rewrite insert_insert_eq, <- !app_assoc.
Qed.

Lemma new_calls_logged st m h t :
  new_calls st {| modules_ := m; heap := h; trace := trace st ++ t |} = t.
Proof. by apply new_calls_app. Qed.

Lemma new_calls_same st : new_calls st st = [].
Proof. unfold new_calls. by rewrite drop_all. Qed.

(** ** The claims *)

(** C3. Unknown-module resolution is a no-op: for a frame whose module
    reference is null, or whose module key is not in the module table,
    [FillSourceLineInfo] leaves the frame as it was, and
    [FindWindowsFrameInfo] and [FindCFIFrameInfo] return null. *)
Theorem unknown_module_resolution_noop (f : StackFrame) st :
  (frame_module f = None ∨
   ∃ cm, frame_module f = Some cm ∧
         map_find (code_file cm) (modules_ st) = None) →
  FillSourceLineInfo (Some f) st = Returns f ∧
  FindWindowsFrameInfo (Some f) st = Returns None ∧
  FindCFIFrameInfo (Some f) st = Returns None.
Proof.
  unfold FillSourceLineInfo, FindWindowsFrameInfo, FindCFIFrameInfo.
  intros [-> | (cm & -> & ->)]; done.
Qed.

(** C8. Hook discipline of [UnloadModule]: for a non-null module the
    call adds exactly one call of [DeleteDataUnload], on that module, to
    the trace, whether or not the key is in the table; the table loses
    the entry that [find] designates and is unchanged when there is
    none.  For a null module nothing changes and no hook is called. *)
Theorem UnloadModule_hook_discipline code_module st :
  let st' := (UnloadModule code_module st).2 in
  match code_module with
  | Some cm =>
      trace st' = trace st ++ [call_DeleteDataUnload (Some cm)] ∧
      hook_calls (new_calls st st') = [call_DeleteDataUnload (Some cm)] ∧
      heap st' = heap st ∧
      modules_ st' =
        match map_find (code_file cm) (modules_ st) with
        | Some (iter, _) => map_erase iter (modules_ st)
        | None => modules_ st
        end
  | None => st' = st
  end.
Proof.
  destruct code_module as [cm|]; [|done].
  rewrite UnloadModule_spec; simpl.
  split; [done|]. split; [|done].
  by rewrite (new_calls_app _ _ [call_DeleteDataUnload (Some cm)]).
Qed.

(** C9. Hook asymmetry of the two entry points on a key that is already
    present: [LoadModule] returns false and leaves the state as it is
    (no file is opened, no hook is called), while
    [LoadModuleUsingMapBuffer] returns false after it has allocated the
    copy and called [StoreDataBeforeLoad] and then
    [DeleteDataAfterLoad] on it. *)
Theorem duplicate_key_hook_asymmetry fs cm map_file map_buffer st :
  is_Some (map_find (code_file cm) (modules_ st)) →
  let p := fresh (dom (heap st)) in
  LoadModule fs (Some cm) map_file st = (false, st) ∧
  LoadModuleUsingMapBuffer (Some cm) map_buffer st =
    (false,
     {| modules_ := modules_ st;
        heap := <[p := list_ascii_of_string map_buffer ++ [zero]]> (heap st);
        trace := trace st ++
          [call_StoreDataBeforeLoad (Some cm) p;
           call_DeleteDataAfterLoad p] |}) ∧
  heap st !! p = None.
Proof.
  intros Hp. split; [by apply LoadModule_present|]. split.
  - rewrite LoadModuleUsingMapBuffer_spec; simpl.
    apply HasModule_true in Hp. by rewrite Hp.
  - apply fresh_block_free.
Qed.

(** C2, as the code has it.  Buffer lifecycle of
    [LoadModuleUsingMapBuffer]: whatever the module (null, already
    present, new) and whatever the ingest routine answers, the call
    allocates one block [p], and the hook calls it adds to the trace are
    exactly [StoreDataBeforeLoad(module, p)] followed by
    [DeleteDataAfterLoad(p)].  Of the buffer the class itself keeps
    nothing: the table after the call is the table before it, with the
    module that the ingest routine has left inserted when the call
    returns true.  That module was given the address; when the ingest
    routine makes no use of it, the result and the table are the same
    wherever the block was allocated. *)
Theorem LoadModuleUsingMapBuffer_buffer_lifecycle module map_buffer st :
  let p := fresh (dom (heap st)) in
  let contents := list_ascii_of_string map_buffer ++ [zero] in
  let res := LoadModuleUsingMapBuffer module map_buffer st in
  heap st !! p = None ∧
  is_Some (heap res.2 !! p) ∧
  (∃ mid,
     trace res.2 =
       trace st ++ [call_StoreDataBeforeLoad module p] ++ mid ++
         [call_DeleteDataAfterLoad p] ∧
     hook_calls mid = []) ∧
  hook_calls (new_calls st res.2) =
    [call_StoreDataBeforeLoad module p; call_DeleteDataAfterLoad p] ∧
  modules_ res.2 =
    match module with
    | Some cm =>
        if res.1
        then map_insert (code_file cm, parsed cm p contents) (modules_ st)
        else modules_ st
    | None => modules_ st
    end ∧
  (address_blind →
   ∀ h t,
     let res' :=
       LoadModuleUsingMapBuffer module map_buffer
         {| modules_ := modules_ st; heap := h; trace := t |} in
     res'.1 = res.1 ∧ modules_ res'.2 = modules_ res.2).
Proof.
  simpl. split; [apply fresh_block_free|].
  rewrite LoadModuleUsingMapBuffer_spec; simpl.
  destruct module as [cm|]; [destruct (HasModule (Some cm) st) eqn:Hh|];
    simpl.
  - split; [by rewrite lookup_insert_eq|].
    split; [by exists []|].
    split; [by rewrite new_calls_logged|].
    split; [done|].
    intros _ h t. rewrite LoadModuleUsingMapBuffer_spec; simpl.
    unfold HasModule in *; simpl. by rewrite Hh.
  - split; [by rewrite lookup_insert_eq|].
    split; [by eexists [_]|].
    split; [by rewrite new_calls_logged|].
    split; [done|].
    intros Hblind h t. rewrite LoadModuleUsingMapBuffer_spec; simpl.
    unfold HasModule in *; simpl. rewrite Hh.
    by rewrite (Hblind _ (fresh (dom h)) (fresh (dom (heap st)))).
  - split; [by rewrite lookup_insert_eq|].
    split; [by exists []|].
    split; [by rewrite new_calls_logged|].
    done.
Qed.


(** C7. Short-read detection: when [stat] reports [file_size] and the
    stream delivers another number of bytes to [fread], [LoadModule]
    returns false and the module table is as before. *)
Theorem short_read_detected fs module map_file st file_size f :
  fs_stat fs map_file = Some file_size →
  fs_fopen fs map_file = Some f →
  length (take file_size f) ≠ file_size →
  (LoadModule fs module map_file st).1 = false ∧
  modules_ (LoadModule fs module map_file st).2 = modules_ st.
Proof.
  intros Hstat Hopen Hshort. rewrite LoadModule_spec; simpl.
  destruct module as [cm|]; [|done].
  destruct (HasModule (Some cm) st); [done|].
  rewrite Hstat, Hopen.
  destruct (_ =? _)%Z eqn:E; [|done].
  apply Z.eqb_eq, int_of_size_t_eq in E; [done|rewrite length_take; lia].
Qed.

(** C10. Coarseness of key equality: keys are compared as C strings, so
    two code-file names that agree up to and including an embedded nul
    byte are one key.  After a successful load of the first, [HasModule]
    answers true for the second, and a load of the second returns false
    and leaves the table as it is. *)
Theorem key_equality_coarseness (first later : LoadCall) cm1 cm2 p x y st0 :
  code_file cm1 = p +:+ String zero x →
  code_file cm2 = p +:+ String zero y →
  load_module_of first = Some cm1 →
  (load_call first st0).1 = true →
  load_module_of later = Some cm2 →
  let st := (load_call first st0).2 in
  key_equiv (code_file cm1) (code_file cm2) = true ∧
  HasModule (Some cm2) st = true ∧
  (load_call later st).1 = false ∧
  modules_ (load_call later st).2 = modules_ st.
Proof.
  intros H1 H2 Hfirst Htrue Hlater st.
  assert (key_equiv (code_file cm1) (code_file cm2) = true) as E
    by (rewrite H1, H2; apply key_equiv_nul_cut).
  assert (is_Some (map_find (code_file cm2) (modules_ st))) as Hp.
  { rewrite <- (map_find_equiv _ _ _ E). by apply load_call_true_present. }
  split; [done|]. split; [by apply HasModule_true|].
  by apply (load_call_present later cm2).
Qed.

Lemma load_call_valid (c : LoadCall) cm st :
  load_module_of c = Some cm →
  load_has_valid_data (fresh (dom (heap st))) c →
  map_find (code_file cm) (modules_ st) = None →
  (load_call c st).1 = true.
Proof.
  intros Hc Hv Hf. apply (proj2 (HasModule_false cm st)) in Hf.
  destruct c as [fs module map_file|module map_buffer]; simpl in *; subst.
  - destruct Hv as (file_size & f & Hstat & Hopen & Hlen & Hint & Hacc).
    rewrite LoadModule_spec; simpl. rewrite Hf, Hstat, Hopen.
    rewrite length_take, Nat.min_l, int_of_size_t_small, Z.eqb_refl by done.
    done.
  - rewrite LoadModuleUsingMapBuffer_spec; simpl. by rewrite Hf.
Qed.

(** C4. Unload clears the key and permits a reload: after
    [UnloadModule(K)] on a well-formed table [HasModule(K)] is false, and
    a load of [K] that brings valid symbol data and meets no other
    failure returns true.  (The data are valid where the load puts them:
    in the next free block of the heap, which the unload leaves as it
    is.) *)
Theorem unload_clears_and_permits_reload (c : LoadCall) cm st :
  map_ok (modules_ st) →
  load_module_of c = Some cm →
  load_has_valid_data (fresh (dom (heap st))) c →
  let st' := (UnloadModule (Some cm) st).2 in
  HasModule (Some cm) st' = false ∧
  (load_call c st').1 = true ∧
  HasModule (Some cm) (load_call c st').2 = true.
Proof.
  intros Hok Hc Hv st'.
  assert (map_find (code_file cm) (modules_ st') = None) as Hf.
  { unfold st'. rewrite UnloadModule_spec; simpl.
    destruct (map_find (code_file cm) (modules_ st)) as [[iter e]|] eqn:Hf;
      [|done].
    by eapply map_find_erase. }
  split; [by apply HasModule_false|].
  assert ((load_call c st').1 = true) as Ht.
  { eapply load_call_valid; [done| |done].
    unfold st'. by rewrite UnloadModule_spec. }
  split; [done|]. by apply HasModule_true, load_call_true_present.
Qed.


(** The three frame operations see of the table only the entry of the
    frame's module key. *)
Lemma resolution_by_lookup (f : StackFrame) cm st1 st2 :
  frame_module f = Some cm →
  map_lookup (code_file cm) (modules_ st1) =
    map_lookup (code_file cm) (modules_ st2) →
  FillSourceLineInfo (Some f) st1 = FillSourceLineInfo (Some f) st2 ∧
  FindWindowsFrameInfo (Some f) st1 = FindWindowsFrameInfo (Some f) st2 ∧
  FindCFIFrameInfo (Some f) st1 = FindCFIFrameInfo (Some f) st2.
Proof.
  unfold FillSourceLineInfo, FindWindowsFrameInfo, FindCFIFrameInfo,
    map_lookup.
  intros -> Hl.
  destruct (map_find (code_file cm) (modules_ st1)) as [[j1 [k1 md1]]|],
    (map_find (code_file cm) (modules_ st2)) as [[j2 [k2 md2]]|];
    simpl in Hl; try done.
  by injection Hl as -> ->.
Qed.

(** An operation that does not unload [K] keeps the table well formed
    and the entry of [K] in it; if it is a load of [K], it returns
    false. *)
Lemma run_keeps_entry K e op st r st' :
  run op st = Returns (r, st') →
  op_unloads K op = false →
  map_ok (modules_ st) →
  map_lookup K (modules_ st) = Some e →
  map_ok (modules_ st') ∧
  map_lookup K (modules_ st') = Some e ∧
  (op_loads K op = true → r = ret_bool false).
Proof.
  intros Hrun Hun Hok HK.
  assert (∀ (c : LoadCall),
    (op_loads K op = true →
     ∃ cm, load_module_of c = Some cm ∧ code_file cm = K) →
    let res := load_call c st in
    map_ok (modules_ res.2) ∧ map_lookup K (modules_ res.2) = Some e ∧
    (op_loads K op = true → ret_bool res.1 = ret_bool false)) as Hload.
  { intros c Hc. simpl.
    pose proof (load_call_modules c st) as Hm. simpl in Hm.
    split; [by apply load_call_map_ok|].
    destruct (load_call c st).1.
    - destruct Hm as (cm & md & Hcm & Hf & ->). split.
      + apply map_lookup_insert_other; [by apply map_lookup_None|done].
      + intros (cm' & Hcm' & <-)%Hc.
        assert (cm' = cm) as -> by congruence.
        apply map_lookup_None in Hf. congruence.
    - by rewrite Hm. }
  destruct op as [fs m f|m b|m|m|fr|fr|fr]; simpl in Hrun.
  - specialize (Hload (FromFile fs m f)); simpl in Hload.
    destruct (LoadModule fs m f st) as [b st1]. injection Hrun as <- <-.
    apply Hload; simpl.
    destruct m as [cm|]; [|done]. intros HK'%String.eqb_eq. eauto.
  - specialize (Hload (FromBuffer m b)); simpl in Hload.
    destruct (LoadModuleUsingMapBuffer m b st) as [r1 st1].
    injection Hrun as <- <-.
    apply Hload; simpl.
    destruct m as [cm|]; [|done]. intros HK'%String.eqb_eq. eauto.
  - pose proof (UnloadModule_map_ok m st Hok) as Hok'.
    destruct m as [cm|].
    + rewrite UnloadModule_spec in Hrun, Hok'. injection Hrun as <- <-.
      simpl in *. split; [done|]. split; [|done].
      destruct (map_find (code_file cm) (modules_ st)) as [[j e']|] eqn:Hf;
        [|done].
      by erewrite map_lookup_erase_other.
    + by injection Hrun as <- <-.
  - by injection Hrun as <- <-.
  - destruct (FillSourceLineInfo fr st); [|done]. by injection Hrun as <- <-.
  - destruct (FindWindowsFrameInfo fr st); [|done].
    by injection Hrun as <- <-.
  - destruct (FindCFIFrameInfo fr st); [|done]. by injection Hrun as <- <-.
Qed.

Lemma run_all_keeps_entry K e ops : ∀ st results st_end,
  run_all ops st = Returns (results, st_end) →
  Forall (λ op, op_unloads K op = false) ops →
  map_ok (modules_ st) →
  map_lookup K (modules_ st) = Some e →
  map_ok (modules_ st_end) ∧
  map_lookup K (modules_ st_end) = Some e ∧
  ∀ i op, ops !! i = Some op → op_loads K op = true →
          results !! i = Some (ret_bool false).
Proof.
  induction ops as [|op ops IH]; intros st results st_end Hrun Hun Hok HK.
  - by injection Hrun as <- <-.
  - simpl in Hrun. apply Forall_cons in Hun as [Hun1 Hun].
    destruct (run op st) as [[r st1]|] eqn:Hop; [|done].
    destruct (run_all ops st1) as [[rs st2]|] eqn:Hrest; [|done].
    injection Hrun as <- <-.
    destruct (run_keeps_entry K e op st r st1) as (Hok1 & HK1 & Hr); try done.
    destruct (IH st1 rs st2) as (Hok2 & HK2 & Hrs); try done.
    split; [done|]. split; [done|].
    intros [|i] op'; simpl.
    + intros [= <-] Hl. by rewrite Hr.
    + apply Hrs.
Qed.

(** Every well-formed table stays so under the operations. *)
Lemma run_map_ok op st r st' :
  run op st = Returns (r, st') → map_ok (modules_ st) →
  map_ok (modules_ st').
Proof.
  intros Hrun Hok.
  destruct op as [fs m f|m b|m|m|fr|fr|fr]; simpl in Hrun.
  - pose proof (load_call_map_ok (FromFile fs m f) st Hok) as Hl.
    simpl in Hl. destruct (LoadModule fs m f st).
    by injection Hrun as <- <-.
  - pose proof (load_call_map_ok (FromBuffer m b) st Hok) as Hl.
    simpl in Hl. destruct (LoadModuleUsingMapBuffer m b st).
    by injection Hrun as <- <-.
  - pose proof (UnloadModule_map_ok m st Hok) as Hl.
    destruct (UnloadModule m st). by injection Hrun as <- <-.
  - by injection Hrun as <- <-.
  - destruct (FillSourceLineInfo fr st); [|done]. by injection Hrun as <- <-.
  - destruct (FindWindowsFrameInfo fr st); [|done].
    by injection Hrun as <- <-.
  - destruct (FindCFIFrameInfo fr st); [|done]. by injection Hrun as <- <-.
Qed.

(** The table of a new resolver is well formed, and so is every table
    that a sequence of operations reaches from it. *)
Lemma new_map_ok h : map_ok (modules_ (SourceLineResolverBase_new h)).
Proof. apply map_ok_nil. Qed.

Lemma run_all_map_ok ops : ∀ st results st_end,
  run_all ops st = Returns (results, st_end) →
  map_ok (modules_ st) → map_ok (modules_ st_end).
Proof.
  induction ops as [|op ops IH]; intros st results st_end Hrun Hok.
  - by injection Hrun as <- <-.
  - simpl in Hrun.
    destruct (run op st) as [[r st1]|] eqn:Hop; [|done].
    destruct (run_all ops st1) as [[rs st2]|] eqn:Hrest; [|done].
    injection Hrun as <- <-.
    eapply IH; [done|]. by eapply run_map_ok.
Qed.

(** C1. At most one load per module key: after a load of a module with
    key [K] has returned true, and as long as [K] is not unloaded, every
    later load of [K], from a file or from a buffer and whatever the
    content, returns false; the entry stored under [K] stays the same,
    and so do the results of the three frame operations on the frames of
    that module. *)
Theorem at_most_once_per_module_key (first : LoadCall) cm st0
    (ops : list Op) (results : list Result) (st_end : State) :
  map_ok (modules_ st0) →
  load_module_of first = Some cm →
  (load_call first st0).1 = true →
  let K := code_file cm in
  let st := (load_call first st0).2 in
  Forall (λ op, op_unloads K op = false) ops →
  run_all ops st = Returns (results, st_end) →
  (∀ i op, ops !! i = Some op → op_loads K op = true →
           results !! i = Some (ret_bool false)) ∧
  is_Some (map_lookup K (modules_ st)) ∧
  map_lookup K (modules_ st_end) = map_lookup K (modules_ st) ∧
  (∀ (f : StackFrame) cm', frame_module f = Some cm' → code_file cm' = K →
     FillSourceLineInfo (Some f) st_end = FillSourceLineInfo (Some f) st ∧
     FindWindowsFrameInfo (Some f) st_end =
       FindWindowsFrameInfo (Some f) st ∧
     FindCFIFrameInfo (Some f) st_end = FindCFIFrameInfo (Some f) st).
Proof.
  intros Hok Hfirst Htrue K st Hun Hrun.
  assert (is_Some (map_lookup K (modules_ st))) as [e He]
    by by apply map_lookup_is_Some, load_call_true_present.
  destruct (run_all_keeps_entry K e ops st results st_end)
    as (_ & HK & Hres); try done.
  { by apply load_call_map_ok. }
  split; [done|]. split; [by rewrite He|]. split; [congruence|].
  intros f cm' Hf HK'. apply (resolution_by_lookup f cm'); [done|].
  rewrite HK'. congruence.
Qed.

End ResolverFacts.

(** ** Further properties: the keys *)

(** X1. [CompareString] is a strict weak order, as a comparator of
    [std::map] has to be: no key is below itself, the order is
    transitive, and so is being unordered. *)
Theorem CompareString_strict_weak_order :
  (∀ a, CompareString a a = false) ∧
  (∀ a b c, CompareString a b = true → CompareString b c = true →
            CompareString a c = true) ∧
  (∀ a b c, key_equiv a b = true → key_equiv b c = true →
            key_equiv a c = true).
Proof.
  split; [apply CompareString_irrefl|]. split; [apply CompareString_trans|].
  intros a b c Hab [H1 H2]%key_equiv_spec. apply key_equiv_spec.
  by rewrite (key_equiv_CompareString_l _ _ c Hab),
    (key_equiv_CompareString_r _ _ c Hab).
Qed.

Lemma strcmp_zero_c_prefix p : ∀ q,
  strcmp p q = 0%Z ↔ c_prefix p = c_prefix q.
Proof.
  induction p as [|a p IH]; intros [|b q]; simpl.
  - done.
  - destruct (Ascii.eqb_spec b zero) as [->|Hb]; [done|].
    split; [|done]. intros E. destruct Hb. apply byte_val_inj.
    rewrite byte_val_zero. lia.
  - destruct (Ascii.eqb_spec a zero) as [->|Ha]; [done|].
    split; [|done]. intros E. destruct Ha. apply byte_val_inj.
    rewrite byte_val_zero. lia.
  - destruct (Ascii.eqb_spec a b) as [->|Hab].
    + destruct (Ascii.eqb_spec b zero) as [->|Hb]; [done|].
      rewrite IH. split; [congruence|]. by intros [= ?].
    + split.
      * intros E. destruct Hab. apply byte_val_inj. lia.
      * destruct (Ascii.eqb_spec a zero) as [->|Ha],
          (Ascii.eqb_spec b zero) as [->|Hb]; try done.
        intros [= ? ?]. done.
Qed.

Lemma key_equiv_strcmp a b :
  key_equiv a b = true ↔ strcmp (c_str a) (c_str b) = 0%Z.
Proof.
  rewrite key_equiv_spec, !CompareString_false.
  rewrite (strcmp_antisym (c_str a) (c_str b)). lia.
Qed.

Lemma c_prefix_app_nul p : c_prefix (p ++ [zero]) = c_prefix p.
Proof.
  induction p as [|a p IH]; simpl; [done|].
  destruct (Ascii.eqb a zero); [done|]. by rewrite IH.
Qed.

Lemma c_prefix_nul_free p : Forall (λ a, a ≠ zero) p → c_prefix p = p.
Proof.
  induction 1 as [|a p Ha _ IH]; simpl; [done|].
  destruct (Ascii.eqb_spec a zero); [done|]. by rewrite IH.
Qed.

(** X2. Two names are one key exactly when they have the same bytes
    before their first nul byte. *)
Theorem key_equiv_iff_c_prefix a b :
  key_equiv a b = true ↔
  c_prefix (list_ascii_of_string a) = c_prefix (list_ascii_of_string b).
Proof.
  rewrite key_equiv_strcmp, strcmp_zero_c_prefix. unfold c_str.
  by rewrite !c_prefix_app_nul.
Qed.

(** X3. Names without a nul byte are one key only when they are the same
    string: the map tells all such names apart. *)
Theorem key_equiv_nul_free a b :
  nul_free a → nul_free b → (key_equiv a b = true ↔ a = b).
Proof.
  intros Ha Hb. rewrite key_equiv_strcmp, strcmp_zero_c_prefix.
  unfold c_str. rewrite !c_prefix_app_nul.
  rewrite !c_prefix_nul_free by done. split; [|by intros ->].
  intros E.
  rewrite <- (string_of_list_ascii_of_string a),
    <- (string_of_list_ascii_of_string b). by rewrite E.
Qed.

(** ** Further properties: the table *)

Section MoreMapFacts.
Context {V : Type}.
Implicit Types (m : list (string * V)) (e : string * V) (k : string) (v : V).

(** Inserting leaves the entries of the keys that are not equivalent to
    the inserted one. *)
Lemma map_lookup_insert_ne k k' v m :
  key_equiv k' k = false →
  map_lookup k (map_insert (k', v) m) = map_lookup k m.
Proof.
  intros Hne.
  assert (CompareString k' k = false → CompareString k k' = true) as Hord.
  { intros H1. destruct (CompareString k k') eqn:H2; [done|].
    rewrite (proj2 (key_equiv_spec k' k)) in Hne; done. }
  induction m as [|e0 m IH].
  - rewrite map_insert_nil, map_lookup_cons; simpl.
    destruct (CompareString k' k) eqn:H1; [done|]. by rewrite Hord.
  - rewrite map_insert_cons; simpl.
    destruct (CompareString e0.1 k') eqn:H1.
    + rewrite !map_lookup_cons. by rewrite IH.
    + destruct (CompareString k' e0.1) eqn:H2; [|done].
      rewrite (map_lookup_cons k (k', v)); simpl.
      destruct (CompareString k' k) eqn:H3; [done|].
      rewrite Hord by done. rewrite map_lookup_cons.
      assert (CompareString k e0.1 = true) as Hk
        by (eapply CompareString_trans; [by apply Hord|done]).
      by rewrite (CompareString_asym _ _ Hk), Hk.
Qed.

(** Erasing what has just been inserted under an absent key gives the
    map back. *)
Lemma map_erase_insert k v m :
  map_find k m = None →
  map_erase (lower_bound k m) (map_insert (k, v) m) = m.
Proof.
  unfold map_erase. induction m as [|e0 m IH]; [done|].
  rewrite map_find_cons, map_insert_cons; simpl.
  destruct (CompareString e0.1 k) eqn:H1.
  - intros Hf%fmap_None. simpl. by rewrite IH.
  - by destruct (CompareString k e0.1).
Qed.

(** In a well-formed map an earlier key is below every later one. *)
Lemma map_ok_lookup_lt m i j e1 e2 :
  map_ok m → i < j → m !! i = Some e1 → m !! j = Some e2 →
  CompareString e1.1 e2.1 = true.
Proof.
  unfold map_ok. intros Hs. revert i j.
  induction Hs as [|e0 m Hs IH Hall]; intros i j Hij Hi Hj; [done|].
  destruct j as [|j]; [lia|]. simpl in Hj.
  destruct i as [|i]; simpl in Hi.
  - injection Hi as <-. rewrite Forall_forall in Hall.
    apply Hall. by eapply list_elem_of_lookup_2.
  - apply (IH i j); [lia|done..].
Qed.

Lemma map_ok_unique m i j e1 e2 :
  map_ok m → i ≠ j → m !! i = Some e1 → m !! j = Some e2 →
  key_equiv e1.1 e2.1 = false.
Proof.
  intros Hok Hij Hi Hj. unfold key_equiv.
  destruct (decide (i < j)).
  - by rewrite (map_ok_lookup_lt m i j e1 e2).
  - rewrite (map_ok_lookup_lt m j i e2 e1) by (done || lia).
    apply andb_false_r.
Qed.

End MoreMapFacts.

(** ** Further properties: loading, unloading and resolving *)

Section MoreResolverFacts.
Context `{MF : ModuleFactory}.
Implicit Types (st : State) (cm : CodeModule) (module : option CodeModule).

Lemma int_of_size_t_lt (n : nat) : (int_of_size_t n < 2 ^ 31)%Z.
Proof.
  unfold int_of_size_t.
  pose proof (Z.mod_pos_bound (Z.of_nat n + 2 ^ 31) (2 ^ 32)). lia.
Qed.

(** The test of [ReadSymbolFile] on the count of [fread] passes exactly
    when the stream delivered the announced bytes and their number fits
    an [int]. *)
Lemma read_complete_iff (file_size : nat) (f : list ascii) :
  (int_of_size_t (length (take file_size f)) =? Z.of_nat file_size)%Z =
  (file_size <=? length f) && (Z.of_nat file_size <? 2 ^ 31)%Z.
Proof.
  destruct (int_of_size_t (length (take file_size f)) =? Z.of_nat file_size)%Z
    eqn:E.
  - apply Z.eqb_eq in E. pose proof (int_of_size_t_lt (length (take file_size f))).
    apply int_of_size_t_eq in E as E'; [|rewrite length_take; lia].
    rewrite length_take in E'. symmetry. apply andb_true_iff. split.
    + apply Nat.leb_le. lia.
    + apply Z.ltb_lt. lia.
  - symmetry. apply andb_false_iff.
    destruct (file_size <=? length f) eqn:Hle; [right|by left].
    apply Nat.leb_le in Hle. apply Z.ltb_ge.
    destruct (decide (Z.of_nat file_size < 2 ^ 31)%Z) as [Hlt|]; [|lia].
    apply Z.eqb_neq in E. destruct E.
    rewrite length_take, Nat.min_l by done. by apply int_of_size_t_small.
Qed.

Lemma map_insert_length {V} k (v : V) (m : list (string * V)) :
  map_find k m = None → length (map_insert (k, v) m) = S (length m).
Proof.
  induction m as [|e0 m IH]; [done|].
  rewrite map_find_cons, map_insert_cons; simpl.
  destruct (CompareString e0.1 k).
  - intros Hf%fmap_None. simpl. by rewrite IH.
  - by destruct (CompareString k e0.1).
Qed.

(** What a load returns and leaves in the table, in the runs of the
    model above, where [operator new] provides the block [p]. *)
Lemma load_call_outcome (c : LoadCall) st :
  let p := fresh (dom (heap st)) in
  let res := load_call c st in
  match load_module_of c, load_contents c with
  | Some cm, Some contents =>
      res.1 = negb (HasModule (Some cm) st) && accepts cm p contents ∧
      modules_ res.2 =
        if res.1
        then map_insert (code_file cm, parsed cm p contents) (modules_ st)
        else modules_ st
  | _, _ => res.1 = false ∧ modules_ res.2 = modules_ st
  end.
Proof.
  unfold accepts, parsed.
  destruct c as [fs module map_file|module map_buffer]; simpl.
  - rewrite LoadModule_spec. unfold whole_file.
    destruct module as [cm|]; simpl.
    2:{ by destruct (fs_stat fs map_file), (fs_fopen fs map_file);
          simpl; try destruct (_ && _). }
    destruct (fs_stat fs map_file) as [file_size|]; simpl.
    2:{ by destruct (HasModule (Some cm) st). }
    destruct (fs_fopen fs map_file) as [f|]; simpl.
    2:{ by destruct (HasModule (Some cm) st). }
    rewrite read_complete_iff.
    by destruct (_ && _); simpl; destruct (HasModule (Some cm) st).
  - rewrite LoadModuleUsingMapBuffer_spec.
    destruct module as [cm|]; simpl; [|done].
    by destruct (HasModule (Some cm) st).
Qed.

(** X5. A load registers at most its own module: [HasModule] of the
    loaded module is true afterwards exactly when it was true before or
    the load returned true, and the table has one entry more exactly
    when the load returned true. *)
Theorem load_call_registers (c : LoadCall) st :
  let res := load_call c st in
  HasModule (load_module_of c) res.2 =
    HasModule (load_module_of c) st || res.1 ∧
  length (modules_ res.2) =
    length (modules_ st) + (if res.1 then 1 else 0).
Proof.
  simpl. pose proof (load_call_modules c st) as Hm. simpl in Hm.
  destruct (load_call c st).1 eqn:Hr.
  - destruct Hm as (cm & md & Hc & Hf & Hm). rewrite Hc. split.
    + rewrite orb_true_r. apply HasModule_true.
      rewrite Hm, map_find_insert by done. eauto.
    + rewrite Hm, map_insert_length by done. lia.
  - rewrite orb_false_r. split; [|rewrite Hm; lia].
    destruct (load_module_of c) as [cm|]; [|done].
    unfold HasModule. by rewrite Hm.
Qed.

(** X6. What [ReadSymbolFile] leaves in memory.  It returns a buffer
    exactly when the file is read in full; the buffer is then a block
    that was not live before and holds the bytes of the file followed by
    a nul.  When it returns false the heap is as before: the block it
    had allocated has been deleted.  The table is never touched. *)
Theorem ReadSymbolFile_buffer_or_nothing fs map_file st :
  let p := fresh (dom (heap st)) in
  let res := ReadSymbolFile fs (Some tt) map_file st in
  match whole_file fs map_file with
  | Some data =>
      res.1 = Some p ∧ heap st !! p = None ∧
      heap res.2 = <[p := data ++ [zero]]> (heap st)
  | None => res.1 = None ∧ heap res.2 = heap st
  end ∧
  modules_ res.2 = modules_ st.
Proof.
  simpl. split; [|apply ReadSymbolFile_modules].
  rewrite ReadSymbolFile_spec. unfold whole_file; simpl.
  destruct (fs_stat fs map_file) as [file_size|]; [|done].
  destruct (fs_fopen fs map_file) as [f|]; [|done].
  rewrite read_complete_iff. destruct (_ && _); simpl; [|done].
  split; [done|]. split; [apply fresh_block_free|done].
Qed.

(** X7. What [ReadSymbolFile] calls: the file API only, no hook and no
    ingest routine; and [fclose] once when [fopen] has succeeded, never
    otherwise. *)
Theorem ReadSymbolFile_file_discipline fs map_file st :
  let calls := new_calls st (ReadSymbolFile fs (Some tt) map_file st).2 in
  forallb is_file_call calls = true ∧
  length (List.filter is_fclose calls) =
    match fs_stat fs map_file, fs_fopen fs map_file with
    | Some _, Some _ => 1
    | _, _ => 0
    end.
Proof.
  simpl. rewrite ReadSymbolFile_spec; simpl.
  destruct (fs_stat fs map_file) as [file_size|]; simpl;
    [|by rewrite new_calls_logged].
  destruct (fs_fopen fs map_file) as [f|]; simpl;
    [|by rewrite new_calls_logged].
  by destruct (_ =? _)%Z; simpl; rewrite new_calls_logged.
Qed.

(** X9. The hooks around [LoadModule]: when the module is not null, the
    key is absent and the file is read in full, the hook calls are
    exactly [StoreDataBeforeLoad(module, p)] and then
    [DeleteDataAfterLoad(p)] on the block of the file; in every other
    case no hook is called. *)
Theorem LoadModule_hook_pairing fs module map_file st :
  let p := fresh (dom (heap st)) in
  hook_calls (new_calls st (LoadModule fs module map_file st).2) =
    match module, whole_file fs map_file with
    | Some cm, Some _ =>
        if HasModule (Some cm) st then []
        else [call_StoreDataBeforeLoad (Some cm) p;
              call_DeleteDataAfterLoad p]
    | _, _ => []
    end.
Proof.
  simpl. rewrite LoadModule_spec. unfold whole_file; simpl.
  destruct module as [cm|]; [|by rewrite new_calls_same].
  destruct (HasModule (Some cm) st) eqn:Hh.
  { rewrite new_calls_same.
    by destruct (fs_stat fs map_file), (fs_fopen fs map_file);
      simpl; try destruct (_ && _). }
  destruct (fs_stat fs map_file) as [file_size|]; simpl;
    [|by rewrite new_calls_logged].
  destruct (fs_fopen fs map_file) as [f|]; simpl;
    [|by rewrite new_calls_logged].
  rewrite read_complete_iff.
  by destruct (_ && _); simpl; rewrite new_calls_logged.
Qed.


(** Two states with the same entry under the key of [cm] answer alike
    for [cm]. *)
Lemma answers_by_lookup cm st1 st2 :
  map_lookup (code_file cm) (modules_ st1) =
    map_lookup (code_file cm) (modules_ st2) →
  HasModule (Some cm) st1 = HasModule (Some cm) st2 ∧
  ∀ f : StackFrame, frame_module f = Some cm →
    FillSourceLineInfo (Some f) st1 = FillSourceLineInfo (Some f) st2 ∧
    FindWindowsFrameInfo (Some f) st1 = FindWindowsFrameInfo (Some f) st2 ∧
    FindCFIFrameInfo (Some f) st1 = FindCFIFrameInfo (Some f) st2.
Proof.
  intros Hl. split; [|intros f Hf; by apply (resolution_by_lookup f cm)].
  unfold HasModule. apply bool_decide_ext.
  by rewrite <- !map_lookup_is_Some, Hl.
Qed.

(** X11. Load, then resolve: after a load of [cm] that returned true,
    the three frame operations on a frame of [cm] give what the module
    parsed from the loaded bytes answers for that frame. *)
Theorem load_then_resolve (c : LoadCall) cm contents (f : StackFrame) st :
  load_module_of c = Some cm →
  load_contents c = Some contents →
  (load_call c st).1 = true →
  frame_module f = Some cm →
  let st' := (load_call c st).2 in
  let md := parsed cm (fresh (dom (heap st))) contents in
  FillSourceLineInfo (Some f) st' = Returns (LookupAddress md f) ∧
  FindWindowsFrameInfo (Some f) st' =
    Returns (Module_FindWindowsFrameInfo md f) ∧
  FindCFIFrameInfo (Some f) st' = Returns (Module_FindCFIFrameInfo md f).
Proof.
  intros Hc Hcont Htrue Hf. simpl.
  pose proof (load_call_outcome c st) as Ho. simpl in Ho.
  rewrite Hc, Hcont, Htrue in Ho. destruct Ho as [Hr Hm].
  symmetry in Hr. apply andb_true_iff in Hr as [Hh _].
  apply negb_true_iff, HasModule_false in Hh.
  unfold FillSourceLineInfo, FindWindowsFrameInfo, FindCFIFrameInfo.
  by rewrite Hf, Hm, map_find_insert.
Qed.

(** X12. Load, then unload: whatever the load returned, unloading the
    module that was not in the table before the load gives back the
    table as it was before the load. *)
Theorem load_then_unload_restores (c : LoadCall) cm st :
  load_module_of c = Some cm →
  HasModule (Some cm) st = false →
  modules_ (UnloadModule (Some cm) (load_call c st).2).2 = modules_ st.
Proof.
  intros Hc Hh%HasModule_false. rewrite UnloadModule_spec; simpl.
  pose proof (load_call_modules c st) as Hm. simpl in Hm.
  destruct (load_call c st).1.
  - destruct Hm as (cm' & md & Hc' & _ & ->).
    assert (cm' = cm) as -> by congruence.
    rewrite map_find_insert by done. by apply map_erase_insert.
  - by rewrite Hm, Hh.
Qed.

(** X13. A load touches one key only: the entry of every module whose
    name is not the same key as the loaded one's is as before, and so are
    the answers of [HasModule] and of the frame operations for it. *)
Theorem load_leaves_other_modules (c : LoadCall) cm cm' st :
  load_module_of c = Some cm →
  key_equiv (code_file cm) (code_file cm') = false →
  let st' := (load_call c st).2 in
  map_lookup (code_file cm') (modules_ st') =
    map_lookup (code_file cm') (modules_ st) ∧
  HasModule (Some cm') st' = HasModule (Some cm') st ∧
  ∀ f : StackFrame, frame_module f = Some cm' →
    FillSourceLineInfo (Some f) st' = FillSourceLineInfo (Some f) st ∧
    FindWindowsFrameInfo (Some f) st' = FindWindowsFrameInfo (Some f) st ∧
    FindCFIFrameInfo (Some f) st' = FindCFIFrameInfo (Some f) st.
Proof.
  intros Hc Hne. simpl.
  assert (map_lookup (code_file cm') (modules_ (load_call c st).2) =
          map_lookup (code_file cm') (modules_ st)) as Hl.
  { pose proof (load_call_modules c st) as Hm. simpl in Hm.
    destruct (load_call c st).1; [|by rewrite Hm].
    destruct Hm as (cm0 & md & Hc' & _ & ->).
    assert (cm0 = cm) as -> by congruence.
    by apply map_lookup_insert_ne. }
  split; [done|]. by apply answers_by_lookup.
Qed.

(** X14. An unload touches one key only: on a well-formed table, the
    entry of every module whose name is not the same key as the unloaded
    one's is as before, and so are the answers for it. *)
Theorem unload_leaves_other_modules cm cm' st :
  map_ok (modules_ st) →
  key_equiv (code_file cm) (code_file cm') = false →
  let st' := (UnloadModule (Some cm) st).2 in
  map_lookup (code_file cm') (modules_ st') =
    map_lookup (code_file cm') (modules_ st) ∧
  HasModule (Some cm') st' = HasModule (Some cm') st ∧
  ∀ f : StackFrame, frame_module f = Some cm' →
    FillSourceLineInfo (Some f) st' = FillSourceLineInfo (Some f) st ∧
    FindWindowsFrameInfo (Some f) st' = FindWindowsFrameInfo (Some f) st ∧
    FindCFIFrameInfo (Some f) st' = FindCFIFrameInfo (Some f) st.
Proof.
  intros Hok Hne. simpl.
  assert (map_lookup (code_file cm')
            (modules_ (UnloadModule (Some cm) st).2) =
          map_lookup (code_file cm') (modules_ st)) as Hl.
  { rewrite UnloadModule_spec; simpl.
    destruct (map_find (code_file cm) (modules_ st)) as [[j e]|] eqn:Hf;
      [|done].
    by eapply map_lookup_erase_other. }
  split; [done|]. by apply answers_by_lookup.
Qed.

(** X15. Names that are one key are interchangeable: [HasModule]
    answers alike for both, and unloading either leaves the same
    table. *)
Theorem equivalent_names_interchangeable cm1 cm2 st :
  key_equiv (code_file cm1) (code_file cm2) = true →
  HasModule (Some cm1) st = HasModule (Some cm2) st ∧
  modules_ (UnloadModule (Some cm1) st).2 =
    modules_ (UnloadModule (Some cm2) st).2.
Proof.
  intros E. split.
  - unfold HasModule. by rewrite (map_find_equiv _ _ _ E).
  - rewrite !UnloadModule_spec; simpl. by rewrite (map_find_equiv _ _ _ E).
Qed.

Lemma reachable_map_ok st : reachable st → map_ok (modules_ st).
Proof.
  intros (h & ops & results & Hrun).
  eapply run_all_map_ok; [done|]. apply new_map_ok.
Qed.

(** X16. At most one entry per key, always: in every state that a new
    resolver reaches by its operations, no two entries of the table have
    names that are one key. *)
Theorem reachable_keys_unique st i j e1 e2 :
  reachable st → i ≠ j →
  modules_ st !! i = Some e1 → modules_ st !! j = Some e2 →
  key_equiv e1.1 e2.1 = false.
Proof.
  intros Hr%reachable_map_ok. by apply map_ok_unique.
Qed.



(** ** When [operator new] does not provide the buffer *)

(** The three functions that ask for a buffer, by what [operator new]
    does with the request. *)
Lemma LoadModuleUsingMapBuffer_alloc_spec alloc module map_buffer st :
  LoadModuleUsingMapBuffer_alloc alloc module map_buffer st =
    match alloc (String.length map_buffer + 1) with
    | Provides => Completes (LoadModuleUsingMapBuffer module map_buffer st)
    | Throws => Bad_alloc
    | Gives_null => Completes (false, st)
    end.
Proof.
  unfold LoadModuleUsingMapBuffer_alloc, operator_new_alloc,
    LoadModuleUsingMapBuffer, lift, mbind, MX_bind, mret, MX_ret.
  destruct (alloc _); [|done..].
  unfold mbind, MX_bind, M_bind.
  by destruct (operator_new _ st).
Qed.

Lemma ReadSymbolFile_alloc_spec alloc fs map_file st :
  ReadSymbolFile_alloc alloc fs (Some tt) map_file st =
    match fs_stat fs map_file with
    | Some file_size =>
        match alloc (file_size + 1) with
        | Provides => Completes (ReadSymbolFile fs (Some tt) map_file st)
        | Throws => Bad_alloc
        | Gives_null =>
            Completes
              (None, {| modules_ := modules_ st; heap := heap st;
                        trace := trace st ++ [call_stat map_file] |})
        end
    | None => Completes (ReadSymbolFile fs (Some tt) map_file st)
    end.
Proof.
  unfold ReadSymbolFile_alloc, operator_new_alloc, ReadSymbolFile, lift,
    mbind, MX_bind, mret, MX_ret, log.
  destruct (fs_stat fs map_file) as [file_size|]; [|done].
  destruct (alloc _); [|done..].
  unfold mbind, MX_bind, M_bind.
  by destruct (operator_new _ _).
Qed.

Lemma LoadModule_alloc_spec alloc fs module map_file st :
  LoadModule_alloc alloc fs module map_file st =
    match load_request (FromFile fs module map_file) st with
    | Some n =>
        match alloc n with
        | Provides => Completes (LoadModule fs module map_file st)
        | Throws => Bad_alloc
        | Gives_null =>
            Completes
              (false, {| modules_ := modules_ st; heap := heap st;
                         trace := trace st ++ [call_stat map_file] |})
        end
    | None => Completes (LoadModule fs module map_file st)
    end.
Proof.
  unfold load_request. destruct module as [cm|]; [|done].
  destruct (HasModule (Some cm) st) eqn:Hh.
  - apply HasModule_true in Hh as Hp. destruct Hp as [it Hit].
    rewrite LoadModule_present by eauto.
    unfold LoadModule_alloc, lift, get_modules, mbind, MX_bind, mret, MX_ret.
    by rewrite Hit.
  - apply HasModule_false in Hh as Hf.
    rewrite LoadModule_absent by done.
    unfold LoadModule_alloc, lift, get_modules, mbind, MX_bind, mret, MX_ret.
    rewrite Hf, ReadSymbolFile_alloc_spec.
    destruct (fs_stat fs map_file) as [file_size|]; simpl.
    + destruct (alloc _); [|done..].
      by destruct (ReadSymbolFile fs (Some tt) map_file st) as [[p|] st1].
    + by destruct (ReadSymbolFile fs (Some tt) map_file st) as [[p|] st1].
Qed.

Lemma load_call_alloc_spec alloc (c : LoadCall) st :
  load_call_alloc alloc c st =
    match load_request c st with
    | Some n =>
        match alloc n with
        | Provides => Completes (load_call c st)
        | Throws => Bad_alloc
        | Gives_null =>
            Completes
              (false,
               match c with
               | FromFile _ _ map_file =>
                   {| modules_ := modules_ st; heap := heap st;
                      trace := trace st ++ [call_stat map_file] |}
               | FromBuffer _ _ => st
               end)
        end
    | None => Completes (load_call c st)
    end.
Proof.
  destruct c as [fs module map_file|module map_buffer].
  - simpl load_call_alloc. rewrite LoadModule_alloc_spec.
    by destruct (load_request _ _) as [n|]; [destruct (alloc n)|].
  - apply LoadModuleUsingMapBuffer_alloc_spec.
Qed.

(** C5, as the code has it.  An operation whose frame pointer, if it
    takes one, is not null, and for whose buffer, if it asks for one,
    [operator new] does not throw, returns, for every state and every
    other argument (null module references included), and its result
    has the form its signature announces: a boolean, nothing, the frame,
    or an optional frame info. *)
Theorem total_failure_reporting alloc op st :
  frame_of op ≠ Some None →
  does_not_throw alloc op →
  ∃ r st', run_alloc alloc op st = Completes (r, st') ∧ result_of_kind op r.
Proof.
  destruct op as [fs m f|m b|m|m|[fr|]|[fr|]|[fr|]]; simpl;
    intros Hfr Hthrow; try done.
  - rewrite LoadModule_alloc_spec. unfold load_request.
    destruct m as [cm|];
      [destruct (HasModule (Some cm) st);
       [|destruct (fs_stat fs f) as [file_size|] eqn:Hstat; simpl;
         [specialize (Hthrow file_size eq_refl);
          destruct (alloc (file_size + 1)); [|done|]|]]|];
      try (destruct (LoadModule fs _ f st) as [b st']); by eexists _, _.
  - rewrite LoadModuleUsingMapBuffer_alloc_spec.
    destruct (alloc _); [|done|];
      try (destruct (LoadModuleUsingMapBuffer m b st) as [r st']);
      by eexists _, _.
  - destruct (UnloadModule m st) as [[] st']. by eexists _, _.
  - by eexists _, _.
  - unfold FillSourceLineInfo.
    destruct (frame_module fr) as [cm|]; [|by eexists _, _].
    destruct (map_find _ _) as [[? [? md]]|]; by eexists _, _.
  - unfold FindWindowsFrameInfo.
    destruct (frame_module fr) as [cm|]; [|by eexists _, _].
    destruct (map_find _ _) as [[? [? md]]|]; by eexists _, _.
  - unfold FindCFIFrameInfo.
    destruct (frame_module fr) as [cm|]; [|by eexists _, _].
    destruct (map_find _ _) as [[? [? md]]|]; by eexists _, _.
Qed.

(** C6. Nul termination of the ingest buffer.  On both load paths the
    ingest routine is called once, when the module is not null and its
    key is absent (and, for a file, when it has been read in full), and
    never otherwise; the character array it is given is then the source
    content (the bytes of [map_buffer], resp. of the file, as many as
    [stat] announced) followed by one nul byte.  It is one byte longer
    than the content and ends in a nul whatever nul bytes the content
    holds. *)
Theorem ingest_buffer_nul_terminated fs module map_file map_buffer st :
  let handed (content : list ascii) :=
    match module with
    | Some cm => if HasModule (Some cm) st then [] else [content ++ [zero]]
    | None => []
    end in
  ingest_buffers
    (new_calls st (LoadModuleUsingMapBuffer module map_buffer st).2) =
    handed (list_ascii_of_string map_buffer) ∧
  ingest_buffers (new_calls st (LoadModule fs module map_file st).2) =
    match whole_file fs map_file with
    | Some data => handed data
    | None => []
    end ∧
  (∀ data, whole_file fs map_file = Some data →
           fs_stat fs map_file = Some (length data)) ∧
  (∀ content : list ascii,
     length (content ++ [zero]) = length content + 1 ∧
     last (content ++ [zero]) = Some zero).
Proof.
  simpl. split; [|split; [|split]].
  - rewrite LoadModuleUsingMapBuffer_spec; simpl.
    by destruct module as [cm|]; [destruct (HasModule (Some cm) st)|];
      simpl; rewrite new_calls_logged.
  - rewrite LoadModule_spec. unfold whole_file; simpl.
    destruct module as [cm|].
    2:{ rewrite new_calls_same.
        by destruct (fs_stat fs map_file), (fs_fopen fs map_file);
          simpl; try destruct (_ && _). }
    destruct (HasModule (Some cm) st).
    { rewrite new_calls_same.
      by destruct (fs_stat fs map_file), (fs_fopen fs map_file);
        simpl; try destruct (_ && _). }
    destruct (fs_stat fs map_file) as [file_size|]; simpl;
      [|by rewrite new_calls_logged].
    destruct (fs_fopen fs map_file) as [f|]; simpl;
      [|by rewrite new_calls_logged].
    rewrite read_complete_iff.
    by destruct (_ && _); simpl; rewrite new_calls_logged.
  - unfold whole_file. intros data.
    destruct (fs_stat fs map_file) as [file_size|]; [|done].
    destruct (fs_fopen fs map_file) as [f|]; [|done].
    destruct (file_size <=? length f) eqn:Hle; [|done].
    destruct (_ <? _)%Z; [|done]. simpl. intros [= <-].
    apply Nat.leb_le in Hle. by rewrite length_take, Nat.min_l.
  - intros content. by rewrite length_app, last_snoc.
Qed.

(** X4. What a load does, exactly.  When the load asks [operator new]
    for its buffer and that throws, [std::bad_alloc] leaves the call.
    In every other case the load returns; it returns true exactly when
    the module is not null, the buffer has been provided, the bytes have
    been had (always for a buffer; for a file, when it is read in full),
    the key is not yet in the table, and the ingest routine accepts the
    bytes followed by a nul; the table then gains the parsed module
    under the key, and otherwise it is as before.  No load reads through
    a null pointer. *)
Theorem load_outcome_under_allocation alloc (c : LoadCall) st :
  let p := fresh (dom (heap st)) in
  match load_call_alloc alloc c st with
  | Completes (b, st') =>
      (∀ n, load_request c st = Some n → alloc n ≠ Throws) ∧
      match load_module_of c, load_contents c with
      | Some cm, Some contents =>
          b = negb (HasModule (Some cm) st) &&
              provided alloc (load_request c st) &&
              accepts cm p contents ∧
          modules_ st' =
            if b
            then map_insert (code_file cm, parsed cm p contents)
                   (modules_ st)
            else modules_ st
      | _, _ => b = false ∧ modules_ st' = modules_ st
      end
  | Bad_alloc => ∃ n, load_request c st = Some n ∧ alloc n = Throws
  | Null_read => False
  end.
Proof.
  simpl. rewrite load_call_alloc_spec.
  pose proof (load_call_outcome c st) as Ho. simpl in Ho.
  destruct (load_request c st) as [n|] eqn:Hreq; simpl.
  - destruct (alloc n) eqn:Halloc; simpl.
    + destruct (load_call c st) as [b st']. simpl in Ho.
      split; [by intros ? [= <-]; rewrite Halloc|].
      destruct (load_module_of c) as [cm|]; [|done].
      destruct (load_contents c) as [contents|]; [|done].
      by rewrite andb_true_r.
    + eauto.
    + split; [by intros ? [= <-]; rewrite Halloc|].
      assert (modules_
                match c with
                | FromFile _ _ map_file =>
                    {| modules_ := modules_ st; heap := heap st;
                       trace := trace st ++ [call_stat map_file] |}
                | FromBuffer _ _ => st
                end = modules_ st) as -> by by destruct c.
      destruct (load_module_of c) as [cm|]; [|done].
      destruct (load_contents c) as [contents|]; [|done].
      by rewrite andb_false_r.
  - destruct (load_call c st) as [b st']. simpl in Ho.
    split; [done|].
    destruct (load_module_of c) as [cm|]; [|done].
    destruct (load_contents c) as [contents|]; [|done].
    by rewrite andb_true_r.
Qed.

(** X8. A file for which [stat] reports 2^31 bytes or more is never
    loaded.  [LoadModule] either is left by [std::bad_alloc], when
    [operator new] throws for the buffer, or returns false, having
    called no hook and left the table and the heap as they were.  It
    returns false even when the buffer is provided and [fread] delivers
    every byte: the count is kept in an [int], which cannot equal such a
    size. *)
Theorem LoadModule_rejects_large_file alloc fs module map_file st file_size :
  fs_stat fs map_file = Some file_size →
  (2 ^ 31 ≤ Z.of_nat file_size)%Z →
  let p := fresh (dom (heap st)) in
  match LoadModule_alloc alloc fs module map_file st with
  | Completes (b, st') =>
      b = false ∧ modules_ st' = modules_ st ∧ heap st' = heap st ∧
      hook_calls (new_calls st st') = []
  | Bad_alloc => alloc (file_size + 1) = Throws
  | Null_read => False
  end ∧
  ∀ cm f,
    module = Some cm → HasModule (Some cm) st = false →
    alloc (file_size + 1) = Provides →
    fs_fopen fs map_file = Some f → file_size ≤ length f →
    LoadModule_alloc alloc fs module map_file st =
      Completes
        (false,
         {| modules_ := modules_ st; heap := heap st;
            trace := trace st ++
              [call_stat map_file; call_fopen map_file;
               call_fread p file_size; call_fclose] |}).
Proof.
  intros Hstat Hbig. simpl.
  assert (∀ f : list ascii,
            (int_of_size_t (length (take file_size f))
             =? Z.of_nat file_size)%Z = false) as Hint.
  { intros f. rewrite read_complete_iff.
    by rewrite (proj2 (Z.ltb_ge _ _) Hbig), andb_false_r. }
  rewrite LoadModule_alloc_spec. unfold load_request. split.
  - destruct module as [cm|]; simpl.
    2:{ by rewrite new_calls_same. }
    destruct (HasModule (Some cm) st) eqn:Hh; simpl.
    { rewrite LoadModule_spec; simpl. rewrite Hh; simpl.
      by rewrite new_calls_same. }
    rewrite Hstat; simpl.
    destruct (alloc (file_size + 1)); simpl;
      [|done|by rewrite new_calls_logged].
    rewrite LoadModule_spec; simpl. rewrite Hh, Hstat.
    destruct (fs_fopen fs map_file) as [f|]; simpl;
      [rewrite Hint; simpl|]; by rewrite new_calls_logged.
  - intros cm f -> Hh Halloc Hopen Hlen.
    rewrite Hh, Hstat; simpl. rewrite Halloc, LoadModule_spec; simpl.
    by rewrite Hh, Hstat, Hopen, Hint.
Qed.

End MoreResolverFacts.

(** ** The model at work *)

Import Sample.

Lemma start_map_ok : map_ok (modules_ start).
Proof. apply new_map_ok. Qed.

(** The scenario of the specification: load, query, load again, unload,
    query. *)
Example load_query_reload_unload :
  let r1 := LoadModuleUsingMapBuffer (Some "app.exe") "MODULE" start in
  let r2 := LoadModuleUsingMapBuffer (Some "app.exe") "MODULE" r1.2 in
  let r3 := UnloadModule (Some "app.exe") r2.2 in
  r1.1 = true ∧ HasModule (Some "app.exe") r1.2 = true ∧
  r2.1 = false ∧ HasModule (Some "app.exe") r3.2 = false.
Proof. vm_compute. done. Qed.

(** A path that does not exist: false, nothing registered. *)
Example load_missing_file :
  let r := LoadModule disk (Some "app.exe") "nowhere.sym" start in
  r.1 = false ∧ modules_ r.2 = [] ∧ trace r.2 = [call_stat "nowhere.sym"].
Proof. vm_compute. done. Qed.

(** The file of [disk] holds a nul in its third byte; the array given to
    the ingest routine has all six bytes and a seventh, nul, byte. *)
Example ingest_of_file_with_nul :
  ingest_buffers (trace (LoadModule disk (Some "app.exe") "app.sym" start).2)
  = [["M"; "O"; zero; "U"; "L"; "E"; zero]%char].
Proof. vm_compute. done. Qed.

(** The same for a buffer with a nul in its second byte. *)
Example ingest_of_buffer_with_nul :
  ingest_buffers
    (trace (LoadModuleUsingMapBuffer (Some "app.exe")
              ("M" +:+ String zero "DULE") start).2)
  = [["M"; zero; "D"; "U"; "L"; "E"; zero]%char].
Proof. vm_compute. done. Qed.

Lemma at_most_once_per_module_key_witness :
  let st := (load_call first_load start).2 in
  ∃ results st_end,
    run_all later_calls st = Returns (results, st_end) ∧
    results !! 0 = Some (ret_bool false) ∧
    results !! 2 = Some (ret_bool false) ∧
    results !! 5 = Some (ret_bool false) ∧
    map_lookup "app.exe" (modules_ st_end) =
      map_lookup "app.exe" (modules_ st).
Proof.
  intros st. eexists _, _. split; [vm_compute; reflexivity|].
  edestruct (at_most_once_per_module_key (MF := factory)
               first_load "app.exe" start later_calls)
    as (Hres & _ & Hentry & _).
  - apply start_map_ok.
  - reflexivity.
  - vm_compute; reflexivity.
  - repeat constructor.
  - vm_compute; reflexivity.
  - split; [eapply (Hres 0); vm_compute; reflexivity|].
    split; [eapply (Hres 2); vm_compute; reflexivity|].
    split; [eapply (Hres 5); vm_compute; reflexivity|].
    exact Hentry.
Defined.

Lemma unknown_module_resolution_noop_witness :
  FillSourceLineInfo (Some frame0) start = Returns frame0 ∧
  FindWindowsFrameInfo (Some frame0) start = Returns None ∧
  FindCFIFrameInfo (Some frame0) start = Returns None.
Proof.
  apply (unknown_module_resolution_noop (MF := factory) frame0 start).
  right. exists "app.exe". split; reflexivity.
Defined.

Lemma unload_clears_and_permits_reload_witness :
  let st' := (UnloadModule (Some "app.exe") loaded).2 in
  HasModule (Some "app.exe") st' = false ∧
  (LoadModule disk (Some "app.exe") "app.sym" st').1 = true ∧
  HasModule (Some "app.exe")
    (LoadModule disk (Some "app.exe") "app.sym" st').2 = true.
Proof.
  apply (unload_clears_and_permits_reload (MF := factory)
           load_from_disk "app.exe" loaded).
  - vm_compute. repeat constructor.
  - reflexivity.
  - exists 6, (list_ascii_of_string ("MO" +:+ String zero "ULE")).
    repeat split; vm_compute; (reflexivity || lia || discriminate).
Defined.

Lemma total_failure_reporting_witness :
  ∃ r st',
    run_alloc plenty load_app_op loaded = Completes (r, st') ∧
    result_of_kind load_app_op r.
Proof.
  apply (total_failure_reporting (MF := factory) plenty load_app_op loaded).
  - simpl. discriminate.
  - simpl. discriminate.
Defined.

(** C5, as stated, fails: [FillSourceLineInfo] reads [frame->module]
    without testing [frame], so a call on a null frame pointer does not
    return; not every call of every operation completes. *)
Lemma null_frame_is_dereferenced :
  run (Op_FillSourceLineInfo None) start = Undefined ∧
  run (Op_FindWindowsFrameInfo None) start = Undefined ∧
  run (Op_FindCFIFrameInfo None) start = Undefined ∧
  ¬ (∀ (op : Op) (st : State), ∃ r st', run op st = Returns (r, st')) ∧
  run_alloc plenty (Op_FillSourceLineInfo None) start = Null_read ∧
  run_alloc exhausted load_app_op start = Bad_alloc.
Proof.
  repeat split; try reflexivity.
  intros Hall.
  destruct (Hall (Op_FillSourceLineInfo None) start) as (r & st' & Hrun).
  discriminate Hrun.
Qed.

Lemma short_read_detected_witness :
  (LoadModule short_disk (Some "app.exe") "app.sym" start).1 = false ∧
  modules_ (LoadModule short_disk (Some "app.exe") "app.sym" start).2
    = modules_ start.
Proof.
  apply (short_read_detected (MF := factory) short_disk (Some "app.exe")
           "app.sym" start 6 (list_ascii_of_string "MODU")).
  - reflexivity.
  - reflexivity.
  - vm_compute. lia.
Defined.

Lemma duplicate_key_hook_asymmetry_witness :
  LoadModule disk (Some "app.exe") "app.sym" loaded = (false, loaded) ∧
  LoadModuleUsingMapBuffer (Some "app.exe") "MODULE" loaded =
    (false,
     {| modules_ := modules_ loaded;
        heap := <[fresh (dom (heap loaded)) :=
                    list_ascii_of_string "MODULE" ++ [zero]]> (heap loaded);
        trace := trace loaded ++
          [call_StoreDataBeforeLoad (Some "app.exe")
             (fresh (dom (heap loaded)));
           call_DeleteDataAfterLoad (fresh (dom (heap loaded)))] |}) ∧
  heap loaded !! fresh (dom (heap loaded)) = None.
Proof.
  apply (duplicate_key_hook_asymmetry (MF := factory) disk "app.exe"
           "app.sym" "MODULE" loaded).
  vm_compute. eauto.
Defined.

Lemma key_equality_coarseness_witness :
  let st := (LoadModuleUsingMapBuffer (Some name_one) "MODULE" start).2 in
  key_equiv name_one name_two = true ∧
  HasModule (Some name_two) st = true ∧
  (LoadModule disk (Some name_two) "app.sym" st).1 = false ∧
  modules_ (LoadModule disk (Some name_two) "app.sym" st).2 = modules_ st.
Proof.
  apply (key_equality_coarseness (MF := factory)
           load_one load_two name_one name_two "app" "one" "two" start);
    vm_compute; reflexivity.
Defined.

Lemma key_equiv_nul_free_witness :
  key_equiv "app.exe" "lib.so" = true ↔ "app.exe" = "lib.so".
Proof.
  apply (key_equiv_nul_free "app.exe" "lib.so");
    unfold nul_free; simpl; repeat (constructor; [discriminate|]);
    constructor.
Defined.

Lemma LoadModule_rejects_large_file_witness :
  LoadModule_alloc plenty huge_disk (Some "app.exe") "app.sym" start =
    Completes
      (false,
       {| modules_ := modules_ start; heap := heap start;
          trace := trace start ++
            [call_stat "app.sym"; call_fopen "app.sym";
             call_fread (fresh (dom (heap start))) two_gib;
             call_fclose] |}).
Proof.
  pose proof (LoadModule_rejects_large_file (MF := factory) plenty
                huge_disk (Some "app.exe") "app.sym" start two_gib) as H.
  specialize (H eq_refl).
  assert (Hz : (2 ^ 31 ≤ Z.of_nat two_gib)%Z)
    by (unfold two_gib; rewrite Z2Nat.id; lia).
  specialize (H Hz). cbv zeta in H. destruct H as [_ H].
  apply (H "app.exe" (replicate two_gib "M"%char)).
  - reflexivity.
  - vm_compute; reflexivity.
  - reflexivity.
  - reflexivity.
  - rewrite length_replicate. apply le_n.
Defined.


Lemma load_then_resolve_witness :
  let st' := (load_call first_load start).2 in
  let md :=
    parsed "app.exe" (fresh (dom (heap start)))
      (list_ascii_of_string "MODULE" ++ [zero]) in
  FillSourceLineInfo (Some frame0) st' = Returns (LookupAddress md frame0) ∧
  FindWindowsFrameInfo (Some frame0) st' =
    Returns (Module_FindWindowsFrameInfo md frame0) ∧
  FindCFIFrameInfo (Some frame0) st' =
    Returns (Module_FindCFIFrameInfo md frame0).
Proof.
  apply (load_then_resolve (MF := factory) first_load "app.exe"
           (list_ascii_of_string "MODULE" ++ [zero]) frame0 start).
  - reflexivity.
  - reflexivity.
  - vm_compute; reflexivity.
  - reflexivity.
Defined.

Lemma load_then_unload_restores_witness :
  modules_ (UnloadModule (Some "app.exe") (load_call first_load with_lib).2).2
  = modules_ with_lib.
Proof.
  apply (load_then_unload_restores (MF := factory) first_load "app.exe"
           with_lib).
  - reflexivity.
  - vm_compute; reflexivity.
Defined.

Lemma load_leaves_other_modules_witness :
  let st' := (load_call load_lib loaded).2 in
  map_lookup "app.exe" (modules_ st') = map_lookup "app.exe" (modules_ loaded) ∧
  HasModule (Some "app.exe") st' = HasModule (Some "app.exe") loaded ∧
  ∀ f : Frame, module f = Some "app.exe" →
    FillSourceLineInfo (Some f) st' = FillSourceLineInfo (Some f) loaded ∧
    FindWindowsFrameInfo (Some f) st' =
      FindWindowsFrameInfo (Some f) loaded ∧
    FindCFIFrameInfo (Some f) st' = FindCFIFrameInfo (Some f) loaded.
Proof.
  apply (load_leaves_other_modules (MF := factory) load_lib "lib.so"
           "app.exe" loaded).
  - reflexivity.
  - vm_compute; reflexivity.
Defined.

Lemma unload_leaves_other_modules_witness :
  let st' := (UnloadModule (Some "lib.so") busy).2 in
  map_lookup "app.exe" (modules_ st') = map_lookup "app.exe" (modules_ busy) ∧
  HasModule (Some "app.exe") st' = HasModule (Some "app.exe") busy ∧
  ∀ f : Frame, module f = Some "app.exe" →
    FillSourceLineInfo (Some f) st' = FillSourceLineInfo (Some f) busy ∧
    FindWindowsFrameInfo (Some f) st' = FindWindowsFrameInfo (Some f) busy ∧
    FindCFIFrameInfo (Some f) st' = FindCFIFrameInfo (Some f) busy.
Proof.
  apply (unload_leaves_other_modules (MF := factory) "lib.so" "app.exe"
           busy).
  - vm_compute. repeat constructor.
  - vm_compute; reflexivity.
Defined.

Lemma equivalent_names_interchangeable_witness :
  let st := (load_call load_one start).2 in
  HasModule (Some name_one) st = HasModule (Some name_two) st ∧
  modules_ (UnloadModule (Some name_one) st).2 =
    modules_ (UnloadModule (Some name_two) st).2.
Proof.
  apply (equivalent_names_interchangeable (MF := factory) name_one name_two
           (load_call load_one start).2).
  vm_compute; reflexivity.
Defined.

Lemma reachable_keys_unique_witness :
  ∃ e1 e2,
    modules_ busy !! 0 = Some e1 ∧ modules_ busy !! 1 = Some e2 ∧
    key_equiv e1.1 e2.1 = false.
Proof.
  eexists _, _. split; [vm_compute; reflexivity|].
  split; [vm_compute; reflexivity|].
  eapply (reachable_keys_unique (MF := factory) busy 0 1).
  - exists ∅, busy_calls. eexists. vm_compute. reflexivity.
  - discriminate.
  - vm_compute; reflexivity.
  - vm_compute; reflexivity.
Defined.


Lemma LoadModuleUsingMapBuffer_buffer_lifecycle_witness :
  address_blind (MF := factory) ∧
  ∀ h t,
    (LoadModuleUsingMapBuffer (Some "app.exe") "MODULE"
       {| modules_ := modules_ start; heap := h; trace := t |}).1 =
      (LoadModuleUsingMapBuffer (Some "app.exe") "MODULE" start).1 ∧
    modules_
      (LoadModuleUsingMapBuffer (Some "app.exe") "MODULE"
         {| modules_ := modules_ start; heap := h; trace := t |}).2 =
      modules_ (LoadModuleUsingMapBuffer (Some "app.exe") "MODULE" start).2.
Proof.
  assert (address_blind (MF := factory)) as Hblind by (intros md p q b; done).
  split; [done|].
  by apply (LoadModuleUsingMapBuffer_buffer_lifecycle (MF := factory)
              (Some "app.exe") "MODULE" start).
Defined.

(** C2, as stated, fails: the module that the table holds after the call
    was given the address of the buffer and may keep it.  With the
    modules of [Keeper] the entry under [app.exe] is the very address
    that [DeleteDataAfterLoad] received, and it is another one when the
    buffer is allocated elsewhere. *)
Lemma module_keeps_the_buffer_address :
  (Keeper.load_app Keeper.start).1 = true ∧
  hook_calls (new_calls Keeper.start (Keeper.load_app Keeper.start).2) =
    Keeper.hooks_on 0 ∧
  modules_ (Keeper.load_app Keeper.start).2 = [("app.exe", Some 0)] ∧
  modules_ (Keeper.load_app Keeper.elsewhere).2 = [("app.exe", Some 1)] ∧
  ¬ (∀ h t,
       modules_
         (Keeper.load_app
            {| modules_ := modules_ Keeper.start; heap := h; trace := t |}).2
       = modules_ (Keeper.load_app Keeper.start).2).
Proof.
  repeat split; try (vm_compute; reflexivity).
  intros Hall. specialize (Hall {[ 0 := [] ]} []).
  vm_compute in Hall. discriminate Hall.
Qed.
